(** * The parse-tree core of the runtime ([src/runtime/tree.c])

    A shallow embedding of the reference-counted tree nodes: the
    constructors [ts_tree_make_leaf], [ts_tree_make_error] and
    [ts_tree_make_node], the retain operation, structural equality and the
    S-expression printer.

    Nodes live in a heap and are named by pointers, because a node is shared
    between parents and [ts_tree_retain] mutates it in place.  Functions that
    allocate or write run in a small state-and-failure monad, over the heap
    or, for the printer, over the character block it writes; [None] stands
    for a read through a null or dangling pointer or an access past the end
    of an array, which C leaves undefined.  The two recursive traversals
    take a fuel argument that bounds the recursion depth. *)

From Stdlib Require Import ZArith Ascii String Lia.
From stdpp Require Import base option numbers list gmap strings.

Local Open Scope Z_scope.

(** ** Machine integers *)

(** [size_t] values are integers in [0, 2^64); [wrap] is the reduction every
    [size_t] addition performs. *)
Definition SIZE_MODULUS : Z := 2 ^ 64.

Definition wrap (z : Z) : Z := z mod SIZE_MODULUS.

Definition in_size_t (z : Z) : Prop := 0 ≤ z < SIZE_MODULUS.

(** ** The node record *)

Abbreviation TSSymbol := Z.

Abbreviation ptr := Z.

Definition NULL : ptr := 0.

(** One entry of the array of visible children: a node and its offset. *)
Record TSTreeChild : Type := mkTSTreeChild {
  tree : ptr;
  offset : Z
}.

(** The fields [ts_tree_make_leaf] and [ts_tree_make_node] initialise.  The
    pair ([child_count], [children]) of the C struct is the list [children];
    [visible_children] is the array stored right behind the struct. *)
Record TSTree : Type := mkTSTree {
  ref_count : Z;
  symbol : TSSymbol;
  size : Z;
  children : list ptr;
  visible_child_count : Z;
  lookahead_char : ascii;
  padding : Z;
  options : Z;
  visible_children : list TSTreeChild
}.

Definition child_count (t : TSTree) : Z := Z.of_nat (length (children t)).

Definition set_ref_count (t : TSTree) (n : Z) : TSTree :=
  mkTSTree n (symbol t) (size t) (children t) (visible_child_count t)
           (lookahead_char t) (padding t) (options t) (visible_children t).

Definition set_lookahead_char (t : TSTree) (c : ascii) : TSTree :=
  mkTSTree (ref_count t) (symbol t) (size t) (children t)
           (visible_child_count t) c (padding t) (options t)
           (visible_children t).

Definition set_visible_children (t : TSTree) (vs : list TSTreeChild) : TSTree :=
  mkTSTree (ref_count t) (symbol t) (size t) (children t)
           (visible_child_count t) (lookahead_char t) (padding t) (options t)
           vs.

(** Modelled from the spec: the header [runtime/tree.h] is not among the
    sources.  The spec gives a node a [hidden] and a [wrapper] attribute,
    which the code keeps as two flags of the [options] word; any two distinct
    bits serve. *)
Definition TSTreeOptionsHidden : Z := 1.

Definition TSTreeOptionsWrapper : Z := 4.

(** Modelled from the spec: the visibility predicate of [runtime/tree.h],
    which the spec states as "visible iff not hidden". *)
Definition ts_tree_is_visible (t : TSTree) : bool :=
  Z.land (options t) TSTreeOptionsHidden =? 0.

(** Modelled from the spec: the wrapper predicate of [runtime/tree.h]. *)
Definition ts_tree_is_wrapper (t : TSTree) : bool :=
  negb (Z.land (options t) TSTreeOptionsWrapper =? 0).

(** Modelled from the spec: the reserved symbol that marks a parse error,
    declared in [tree_sitter/parser.h], which is not among the sources.  The
    spec fixes no number for it. *)
Definition ts_builtin_sym_error : TSSymbol := 0.

(** ** State and failure *)

(** Code that reads and writes a store [S] and may run into undefined
    behaviour. *)
Definition ST (S A : Type) : Type := S → option (A * S).

Definition ret {S A : Type} (a : A) : ST S A := λ s, Some (a, s).

Definition bind {S A B : Type} (m : ST S A) (k : A → ST S B) : ST S B :=
  λ s, match m s with
       | Some (a, s') => k a s'
       | None => None
       end.

Definition fail {S A : Type} : ST S A := λ _, None.

Definition lift {S A : Type} (o : option A) : ST S A :=
  λ s, match o with
       | Some a => Some (a, s)
       | None => None
       end.

Notation "'do' x <- m ; k" := (bind m (λ x, k))
  (at level 10, x name, m at level 100, k at level 200).

Notation "'do' ' p <- m ; k" := (bind m (λ x, match x with p => k end))
  (at level 10, p pattern, m at level 100, k at level 200).

(** ** The heap *)

Abbreviation heap := (gmap Z TSTree).

Definition M (A : Type) : Type := ST heap A.

(** [*p] *)
Definition load (p : ptr) : M TSTree :=
  λ h, match h !! p with
       | Some t => Some (t, h)
       | None => None
       end.

(** [*p = t] for an allocated [p] *)
Definition store (p : ptr) (t : TSTree) : M unit :=
  λ h, match h !! p with
       | Some _ => Some (tt, <[p := t]> h)
       | None => None
       end.

(** [malloc] followed by the assignment of the struct: a fresh non-null
    address.  The code does not test for a null result, and neither does the
    model: allocation succeeds. *)
Definition fresh_ptr (h : heap) : ptr := fresh ({[NULL]} ∪ dom h).

Definition malloc (t : TSTree) : M ptr :=
  λ h, let p := fresh_ptr h in Some (p, <[p := t]> h).

(** ** Accessors *)

(** The array and, through the count pointer, its length. *)
Definition ts_tree_children (t : TSTree) : list ptr * Z :=
  (children t, child_count t).

Definition ts_tree_visible_children (t : TSTree) : list TSTreeChild * Z :=
  (visible_children t, visible_child_count t).

(** ** Constructors *)

Definition ts_tree_make_leaf (sym : TSSymbol) (size padding : Z)
    (is_hidden : bool) : M ptr :=
  malloc {| ref_count := 1;
            symbol := sym;
            size := size;
            children := [];
            visible_child_count := 0;
            lookahead_char := zero;
            padding := padding;
            options := if is_hidden then TSTreeOptionsHidden else 0;
            visible_children := [] |}.

Definition ts_tree_make_error (size padding : Z) (lookahead_char : ascii)
    : M ptr :=
  do result <- ts_tree_make_leaf ts_builtin_sym_error size padding false;
  do t <- load result;
  do _ <- store result (set_lookahead_char t lookahead_char);
  ret result.

Definition ts_tree_retain (tree : ptr) : M unit :=
  do t <- load tree;
  store tree (set_ref_count t (wrap (ref_count t + 1))).

Definition ts_tree_total_size (t : TSTree) : Z :=
  wrap (padding t + size t).

(** The first loop of [ts_tree_make_node]: it retains every child and
    accumulates the size, the padding and the number of visible children.
    [i] is the loop index, the list what is left of the array. *)
Fixpoint extent_loop (i : nat) (rest : list ptr) (sz pad vcc : Z)
    : M (Z * Z * Z) :=
  match rest with
  | [] => ret (sz, pad, vcc)
  | child :: rest' =>
      do _ <- ts_tree_retain child;
      do c <- load child;
      let pad' := if (i =? 0)%nat then padding c else pad in
      let sz' := if (i =? 0)%nat then size c
                 else wrap (sz + wrap (padding c + size c)) in
      let vcc' := if ts_tree_is_visible c then wrap (vcc + 1)
                  else wrap (vcc + visible_child_count c) in
      extent_loop (S i) rest' sz' pad' vcc'
  end.

(** The inner loop of the second pass: entries [j .. j+count-1] of a hidden
    child's array are appended, shifted by [off]. *)
Fixpoint copy_grandchildren (count j : nat) (grandchildren : list TSTreeChild)
    (off : Z) (vis : list TSTreeChild) : option (list TSTreeChild) :=
  match count with
  | O => Some vis
  | S count' =>
      match grandchildren !! j with
      | Some g =>
          copy_grandchildren count' (S j) grandchildren off
            (vis ++ [mkTSTreeChild (tree g) (wrap (off + offset g))])
      | None => None
      end
  end.

(** The second loop: the array of visible children is filled from left to
    right, so [vis] is the part written so far and [vis_i] its length. *)
Fixpoint offset_loop (i : nat) (rest : list ptr) (off : Z)
    (vis : list TSTreeChild) : M (list TSTreeChild) :=
  match rest with
  | [] => ret vis
  | child :: rest' =>
      do c <- load child;
      let off' := if (0 <? i)%nat then wrap (off + padding c) else off in
      do vis' <-
        (if ts_tree_is_visible c
         then ret (vis ++ [mkTSTreeChild child off'])
         else
           let '(grandchildren, n) := ts_tree_visible_children c in
           lift (copy_grandchildren (Z.to_nat n) 0 grandchildren off' vis));
      offset_loop (S i) rest' (wrap (off' + size c)) vis'
  end.

(** The test that marks a node as the wrapper of its only child. *)
Definition wraps_single_child (children : list ptr) : M bool :=
  match children with
  | [child] =>
      do c <- load child;
      ret (ts_tree_is_visible c || ts_tree_is_wrapper c)
  | _ => ret false
  end.

(** The node is allocated with room for [visible_child_count] entries behind
    the struct; the second loop stores its entries there one after the
    other, and the array is put in place once the loop is done. *)
Definition ts_tree_make_node (symbol : TSSymbol) (children : list ptr)
    (is_hidden : bool) : M ptr :=
  do '(sz, pad, vcc) <- extent_loop 0 children 0 0 0;
  do single <- wraps_single_child children;
  let options0 := if is_hidden then Z.lor 0 TSTreeOptionsHidden else 0 in
  let options1 :=
    if single
    then Z.lor options0 (Z.lor TSTreeOptionsWrapper TSTreeOptionsHidden)
    else options0 in
  do result <- malloc {| ref_count := 1;
                         symbol := symbol;
                         size := sz;
                         children := children;
                         visible_child_count := vcc;
                         lookahead_char := zero;
                         padding := pad;
                         options := options1;
                         visible_children := [] |};
  do vis <- offset_loop 0 children 0 [];
  do r <- load result;
  do _ <- store result (set_visible_children r vis);
  ret result.

(** ** Equality *)

(** The loop of [ts_tree_equals] over the two child arrays; [eq] is the
    recursive call.  The loop runs up to the first node's child count, so
    running out of the second array is a read past its end. *)
Fixpoint equals_loop (eq : ptr → ptr → option bool) (cs1 cs2 : list ptr)
    : option bool :=
  match cs1, cs2 with
  | [], _ => Some true
  | c1 :: cs1', c2 :: cs2' =>
      match eq c1 c2 with
      | Some true => equals_loop eq cs1' cs2'
      | Some false => Some false
      | None => None
      end
  | _ :: _, [] => None
  end.

Fixpoint ts_tree_equals (fuel : nat) (h : heap) (node1 node2 : ptr)
    : option bool :=
  match fuel with
  | O => None
  | S fuel' =>
      t1 ← h !! node1;
      t2 ← h !! node2;
      if negb (symbol t1 =? symbol t2) then Some false
      else if negb (Ascii.eqb (lookahead_char t1) (lookahead_char t2))
      then Some false
      else if negb (child_count t1 =? child_count t2) then Some false
      else if negb (visible_child_count t1 =? visible_child_count t2)
      then Some false
      else equals_loop (ts_tree_equals fuel' h) (children t1) (children t2)
  end.

(** ** Printing *)

(** The printer writes into a block of characters.  A [char *] into the
    block is a position in it; positions, limits and the counts [snprintf]
    reports are lengths of character sequences held in memory, kept as
    natural numbers. *)
Definition B (A : Type) : Type := ST (list ascii) A.

(** The block after the characters [out] have been stored from [pos] on. *)
Definition poke (pos : nat) (out : list ascii) (buf : list ascii)
    : list ascii :=
  take pos buf ++ out ++ drop (pos + length out) buf.

(** [snprintf(block + pos, limit, ...)] for arguments that format to [s]:
    it stores at most [limit - 1] characters and a terminating zero, nothing
    at all when [limit] is 0, and reports the length of [s].  A store past
    the end of the block is undefined. *)
Definition snprintf (pos limit : nat) (s : string) : B nat :=
  λ buf,
    let l := list_ascii_of_string s in
    match limit with
    | O => Some (length l, buf)
    | S m =>
        let out := take m l ++ [zero] in
        if (pos + length out <=? length buf)%nat
        then Some (length l, poke pos out buf)
        else None
    end.

(** [*writer]: the cursor when there is room to write, the start of the
    scratch block when the call only measures. *)
Definition writer (limit string cursor : nat) : nat :=
  if (0 <? limit)%nat then cursor else string.

Definition write_lookahead_to_string (string limit : nat) (lookahead : ascii)
    : B nat :=
  if Ascii.eqb lookahead zero then snprintf string limit "<EOF>"
  else snprintf string limit ("'" +:+ String lookahead "'").

(** The loop over the children; [write] is the recursive call. *)
Fixpoint write_children (write : ptr → nat → B nat) (limit string : nat)
    (cs : list ptr) (cursor : nat) : B nat :=
  match cs with
  | [] => ret cursor
  | child :: cs' =>
      do n <- write child (writer limit string cursor);
      write_children write limit string cs' (cursor + n)
  end.

Fixpoint tree_write_to_string (fuel : nat) (h : heap) (tree : ptr)
    (symbol_names : list string) (string limit : nat) (is_root : bool)
    : B nat :=
  match fuel with
  | O => fail
  | S fuel' =>
      if tree =? NULL then snprintf string limit "(NULL)"
      else
        match h !! tree with
        | None => fail
        | Some t =>
            let cursor := string in
            let visible := ts_tree_is_visible t || is_root in
            do cursor <-
              (if visible && negb is_root
               then do n <- snprintf (writer limit string cursor) limit " ";
                    ret (cursor + n)%nat
               else ret cursor);
            do cursor <-
              (if visible
               then
                 if symbol t =? ts_builtin_sym_error
                 then
                   do n <- snprintf (writer limit string cursor) limit
                             "(ERROR ";
                   do m <- write_lookahead_to_string
                             (writer limit string (cursor + n)) limit
                             (lookahead_char t);
                   ret (cursor + n + m)%nat
                 else
                   match symbol_names !! Z.to_nat (symbol t) with
                   | Some name =>
                       do n <- snprintf (writer limit string cursor) limit
                                 ("(" +:+ name);
                       ret (cursor + n)%nat
                   | None => fail
                   end
               else ret cursor);
            do cursor <-
              write_children
                (λ child pos,
                   tree_write_to_string fuel' h child symbol_names pos limit
                     false)
                limit string (children t) cursor;
            do cursor <-
              (if visible
               then do n <- snprintf (writer limit string cursor) limit ")";
                    ret (cursor + n)%nat
               else ret cursor);
            ret (cursor - string)%nat
        end
  end.

(** The first call measures into the one-character scratch block; the
    second writes into a block of the measured size, which [malloc] hands
    out with any content: [junk] is that content.  The result is the
    block. *)
Definition ts_tree_string (fuel : nat) (h : heap) (tree : ptr)
    (symbol_names : list string) (junk : nat → ascii)
    : option (list ascii) :=
  match tree_write_to_string fuel h tree symbol_names 0 0 true [zero] with
  | Some (n, _) =>
      let size := (n + 1)%nat in
      let result := junk <$> seq 0 size in
      match tree_write_to_string fuel h tree symbol_names 0 size true
              result with
      | Some (_, block) => Some block
      | None => None
      end
  | None => None
  end.

(** ** Release *)

(** [free(p)]: the block goes back to the allocator.  Freeing what is not
    allocated is undefined. *)
Definition free (p : ptr) : M unit :=
  λ h, match h !! p with
       | Some _ => Some (tt, delete p h)
       | None => None
       end.

(** The loop of [ts_tree_release] over the children; [release] is the
    recursive call. *)
Fixpoint release_loop (release : ptr → M unit) (cs : list ptr) : M unit :=
  match cs with
  | [] => ret tt
  | child :: cs' =>
      do _ <- release child;
      release_loop release cs'
  end.

(** The array of children is part of the node's record here, so
    [free(tree->children)] and [free(tree)] are one step. *)
Fixpoint ts_tree_release (fuel : nat) (tree : ptr) : M unit :=
  match fuel with
  | O => fail
  | S fuel' =>
      do t <- load tree;
      do _ <- store tree (set_ref_count t (wrap (ref_count t - 1)));
      do t <- load tree;
      if ref_count t =? 0
      then
        let '(children, _) := ts_tree_children t in
        do _ <- release_loop (ts_tree_release fuel') children;
        free tree
      else ret tt
  end.

(** ** Vocabulary of the statements *)

Definition Z_sum (l : list Z) : Z := foldr Z.add 0 l.

(** Nodes that agree on every field but the reference count. *)
Definition same_fields (t t' : TSTree) : Prop :=
  set_ref_count t 0 = set_ref_count t' 0.

Definition fields_at (h : heap) (p : ptr) (t : TSTree) : Prop :=
  ∃ t', h !! p = Some t' ∧ same_fields t' t.

(** [k] increments of the reference count, each in [size_t] arithmetic. *)
Definition bump (k : nat) (t : TSTree) : TSTree :=
  set_ref_count t (Nat.iter k (λ n, wrap (n + 1)) (ref_count t)).

(** The heap after every child slot of [cs] has been retained once. *)
Definition retain_all (cs : list ptr) (h : heap) : heap :=
  foldl (λ h' c, alter (bump 1) c h') h cs.

(** The number of slots of [cs] that hold [p]. *)
Definition slots_of (p : ptr) (cs : list ptr) : nat :=
  length (filter (λ c, c = p) cs).

(** What the heap guarantees about each node: its [size_t] fields are in
    range and its array of visible children has the recorded length. *)
Definition node_ok (t : TSTree) : Prop :=
  in_size_t (size t) ∧ in_size_t (padding t) ∧
  visible_child_count t = Z.of_nat (length (visible_children t)).

Definition heap_ok (h : heap) : Prop := map_Forall (λ _ t, node_ok t) h.

(** The loops of [ts_tree_make_node] as functions of the children's
    records. *)
Fixpoint extent_of (i : nat) (ts : list TSTree) (sz pad vcc : Z)
    : Z * Z * Z :=
  match ts with
  | [] => (sz, pad, vcc)
  | c :: ts' =>
      extent_of (S i) ts'
        (if (i =? 0)%nat then size c
         else wrap (sz + wrap (padding c + size c)))
        (if (i =? 0)%nat then padding c else pad)
        (if ts_tree_is_visible c then wrap (vcc + 1)
         else wrap (vcc + visible_child_count c))
  end.

Definition shift_child (off : Z) (g : TSTreeChild) : TSTreeChild :=
  mkTSTreeChild (tree g) (wrap (off + offset g)).

Definition entries_of (child : ptr) (c : TSTree) (off : Z)
    : list TSTreeChild :=
  if ts_tree_is_visible c then [mkTSTreeChild child off]
  else map (shift_child off) (visible_children c).

Fixpoint flatten_from (i : nat) (cs : list ptr) (ts : list TSTree) (off : Z)
    : list TSTreeChild :=
  match cs, ts with
  | child :: cs', c :: ts' =>
      let off' := if (0 <? i)%nat then wrap (off + padding c) else off in
      entries_of child c off' ++
      flatten_from (S i) cs' ts' (wrap (off' + size c))
  | _, _ => []
  end.

Definition single_wrapped (ts : list TSTree) : bool :=
  match ts with
  | [c] => ts_tree_is_visible c || ts_tree_is_wrapper c
  | _ => false
  end.

Definition options_of (ts : list TSTree) (is_hidden : bool) : Z :=
  let options0 := if is_hidden then Z.lor 0 TSTreeOptionsHidden else 0 in
  if single_wrapped ts
  then Z.lor options0 (Z.lor TSTreeOptionsWrapper TSTreeOptionsHidden)
  else options0.

(** The node [ts_tree_make_node] builds over children with records [ts]. *)
Definition node_of (symbol : TSSymbol) (cs : list ptr) (ts : list TSTree)
    (is_hidden : bool) : TSTree :=
  {| ref_count := 1;
     symbol := symbol;
     size := (extent_of 0 ts 0 0 0).1.1;
     children := cs;
     visible_child_count := (extent_of 0 ts 0 0 0).2;
     lookahead_char := zero;
     padding := (extent_of 0 ts 0 0 0).1.2;
     options := options_of ts is_hidden;
     visible_children := flatten_from 0 cs ts 0 |}.

(** The share of a child in its parent's count of visible children. *)
Definition visible_weight (t : TSTree) : Z :=
  if ts_tree_is_visible t then 1 else visible_child_count t.

(** The extent of a child that is not the first: padding plus size. *)
Definition later_extent (t : TSTree) : Z := padding t + size t.

Global Instance node_ok_dec t : Decision (node_ok t).
Proof. unfold node_ok, in_size_t. apply _. Defined.

(** ** Example nodes *)

Definition leaf_A : TSTree :=
  mkTSTree 1 1 1 [] 0 zero 0 0 [].

Definition leaf_B : TSTree :=
  mkTSTree 1 2 2 [] 0 zero 1 0 [].

(** A heap that holds the two leaves at addresses 1 and 2. *)
Definition heap_AB : heap := <[2 := leaf_B]> (<[1 := leaf_A]> ∅).

(** The end-to-end scenario: leaves A and B, a wrapper W over B, a root R
    over A and W. *)
Definition end_to_end (sym_a sym_b sym_w sym_root : TSSymbol)
    : M (ptr * ptr * ptr * ptr) :=
  do a <- ts_tree_make_leaf sym_a 1 0 false;
  do b <- ts_tree_make_leaf sym_b 2 1 false;
  do w <- ts_tree_make_node sym_w [b] true;
  do r <- ts_tree_make_node sym_root [a; w] false;
  ret (a, b, w, r).

(** ** Trees in the heap *)

(** [p] roots a tree of height at most [d] whose nodes are all allocated:
    what a traversal needs to finish within [d] nested calls. *)
Fixpoint tree_within (d : nat) (h : heap) (p : ptr) : Prop :=
  match d with
  | O => False
  | S d' => ∃ t, h !! p = Some t ∧ Forall (tree_within d' h) (children t)
  end.

(** Structural equality in the words of the spec: same symbol, lookahead,
    child count and visible-child count, and children equal pairwise, in
    order. *)
#[warnings="-register-all"]
Inductive Equals_spec (h : heap) : ptr → ptr → Prop :=
  | Equals_nodes a b ta tb :
      h !! a = Some ta →
      h !! b = Some tb →
      symbol ta = symbol tb →
      lookahead_char ta = lookahead_char tb →
      child_count ta = child_count tb →
      visible_child_count ta = visible_child_count tb →
      Forall2 (Equals_spec h) (children ta) (children tb) →
      Equals_spec h a b.

(** The fields [ts_tree_equals] looks at. *)
Definition compared (t : TSTree) : TSSymbol * ascii * list ptr * Z :=
  (symbol t, lookahead_char t, children t, visible_child_count t).

(** A leaf with the symbol of [leaf_A] and another size, padding and hidden
    flag. *)
Definition leaf_A_hidden : TSTree :=
  mkTSTree 1 1 5 [] 0 zero 3 TSTreeOptionsHidden [].

Definition heap_AA : heap := <[2 := leaf_A_hidden]> (<[1 := leaf_A]> ∅).

(** ** Printing, in the words of the spec *)

(** What the printer needs from the tree below [p]: allocated nodes within
    height [d], and a name in the table for every node that prints one. *)
Fixpoint printable (d : nat) (h : heap) (names : list string) (top : bool)
    (p : ptr) : Prop :=
  match d with
  | O => False
  | S d' =>
      p = NULL ∨
      ∃ t, h !! p = Some t ∧
           (ts_tree_is_visible t || top = true →
            symbol t ≠ ts_builtin_sym_error →
            is_Some (names !! Z.to_nat (symbol t))) ∧
           Forall (printable d' h names false) (children t)
  end.

(** The lookahead of an error node as the spec prints it. *)
Definition lookahead_text (c : ascii) : string :=
  if Ascii.eqb c zero then "<EOF>" else "'" +:+ String c "'".

(** The block that holds [s] as a C string. *)
Definition c_string (s : string) : list ascii :=
  list_ascii_of_string s ++ [zero].

(** The rendering the spec describes.  [top] marks the topmost call.  A node
    that is visible, or topmost, prints a parenthesised form with its name,
    or the word ERROR and its lookahead, in front of its rendered children;
    below the top that form follows a space.  A hidden node below the top
    prints its rendered children and nothing else. *)
#[warnings="-register-all"]
Inductive Rendered (h : heap) (names : list string)
    : bool → ptr → string → Prop :=
  | Rendered_null top :
      Rendered h names top NULL "(NULL)"
  | Rendered_named top p t name ss :
      p ≠ NULL →
      h !! p = Some t →
      ts_tree_is_visible t || top = true →
      symbol t ≠ ts_builtin_sym_error →
      names !! Z.to_nat (symbol t) = Some name →
      Forall2 (Rendered h names false) (children t) ss →
      Rendered h names top p
        ((if top then "" else " ") +:+ "(" +:+ name +:+
         foldr String.append "" ss +:+ ")")
  | Rendered_error top p t ss :
      p ≠ NULL →
      h !! p = Some t →
      ts_tree_is_visible t || top = true →
      symbol t = ts_builtin_sym_error →
      Forall2 (Rendered h names false) (children t) ss →
      Rendered h names top p
        ((if top then "" else " ") +:+ "(ERROR " +:+
         lookahead_text (lookahead_char t) +:+
         foldr String.append "" ss +:+ ")")
  | Rendered_hidden p t ss :
      p ≠ NULL →
      h !! p = Some t →
      ts_tree_is_visible t = false →
      Forall2 (Rendered h names false) (children t) ss →
      Rendered h names false p (foldr String.append "" ss).

(** The tree [(name1 (name2) (name3))] of the spec; with [wrapped] the
    [name2] leaf sits below a hidden wrapper, with [root_hidden] the root is
    built hidden. *)
Definition rendering_example (wrapped root_hidden : bool) : M ptr :=
  do n2 <- ts_tree_make_leaf 2 1 0 false;
  do n3 <- ts_tree_make_leaf 3 1 1 false;
  do c <- (if wrapped then ts_tree_make_node 4 [n2] true else ret n2);
  ts_tree_make_node 1 [c; n3] root_hidden.

Definition example_names : list string :=
  ["ERROR"; "name1"; "name2"; "name3"; "wrapper"].

Definition rendered_example (wrapped root_hidden : bool) (fuel : nat)
    (junk : nat → ascii) : option (list ascii) :=
  match rendering_example wrapped root_hidden ∅ with
  | Some (r, h) => ts_tree_string fuel h r example_names junk
  | None => None
  end.

(** The heap and the root of the plain example. *)
Definition example_heap : heap :=
  match rendering_example false false ∅ with
  | Some (_, h) => h
  | None => ∅
  end.

Definition example_root : ptr := 3.

(** ** What a call of the printer leaves in the block *)

(** The text [l] stored from [pos] on with its terminating zero; a call
    that prints nothing stores nothing. *)
Definition emit (pos : nat) (l : list ascii) (buf : list ascii)
    : list ascii :=
  match l with
  | [] => buf
  | _ => poke pos (l ++ [zero]) buf
  end.

(** The block after a call that prints [s] at [pos] under [limit]. *)
Definition wrote (limit pos : nat) (s : string) (buf : list ascii)
    : list ascii :=
  match limit with
  | O => buf
  | S _ => emit pos (list_ascii_of_string s) buf
  end.

(** The call only measures, or the text and its terminator fit both the
    limit and the block. *)
Definition fits (limit pos : nat) (s : string) (buf : list ascii) : Prop :=
  limit = 0%nat ∨
  ((pos + length (list_ascii_of_string s) < limit)%nat ∧
   limit = length buf).

(** A call [w string limit] prints [s]: it stores [s] at [string] and
    reports its length. *)
Definition prints (w : nat → nat → B nat) (s : string) : Prop :=
  ∀ limit string buf,
    fits limit string s buf →
    w string limit buf
    = Some (length (list_ascii_of_string s), wrote limit string s buf).

(** A piece of the printer's body that starts with the cursor at [pos]
    prints [s] and yields the cursor behind it. *)
Definition advances (m : B nat) (limit pos : nat) (s : string) : Prop :=
  ∀ buf,
    fits limit pos s buf →
    m buf
    = Some ((pos + length (list_ascii_of_string s))%nat,
            wrote limit pos s buf).

(** The rest of the body, which ends by returning how far the cursor is from
    [string]. *)
Definition finishes (m : B nat) (limit string pos : nat)
    (s : String.string) : Prop :=
  ∀ buf,
    fits limit pos s buf →
    m buf
    = Some ((pos + length (list_ascii_of_string s) - string)%nat,
            wrote limit pos s buf).

(** ** Placement of the visible children *)

(** The entries [vs] lie one behind the other between [lo] and [hi]: every
    entry names an allocated node and starts at or behind the end of the
    content of the entry before it, and the last content ends at or before
    [hi]. *)
Fixpoint placed (h : heap) (lo : Z) (vs : list TSTreeChild) (hi : Z)
    : Prop :=
  match vs with
  | [] => lo ≤ hi
  | e :: vs' =>
      lo ≤ offset e ∧
      match h !! tree e with
      | Some g => placed h (offset e + size g) vs' hi
      | None => False
      end
  end.

Definition node_placed (h : heap) (t : TSTree) : Prop :=
  placed h 0 (visible_children t) (size t).

(** The invariant of the heaps the constructors build as long as no extent
    overflows. *)
Definition heap_placed (h : heap) : Prop :=
  heap_ok h ∧ map_Forall (λ _ t, node_placed h t) h.

Global Instance placed_dec (h : heap) vs : ∀ lo hi,
  Decision (placed h lo vs hi).
Proof.
  induction vs as [|e vs IH]; intros lo hi; simpl; [apply _|].
  destruct (h !! tree e); apply _.
Defined.

Global Instance node_placed_dec (h : heap) t : Decision (node_placed h t).
Proof. unfold node_placed. apply _. Defined.

(** The bytes the children of a node span behind the node's own padding:
    the first child without its padding, the others with theirs. *)
Definition span (i : nat) (ts : list TSTree) : Z :=
  match ts with
  | [] => 0
  | t :: ts' =>
      (if (0 <? i)%nat then padding t else 0) + size t +
      Z_sum (map later_extent ts')
  end.

(** The two halves of offset monotonicity as the spec words it. *)
Definition offsets_strictly_increasing (vs : list TSTreeChild) : Prop :=
  ∀ i e1 e2, vs !! i = Some e1 → vs !! S i = Some e2 → offset e1 < offset e2.

Definition last_extent_within (h : heap) (node : TSTree) : Prop :=
  ∀ e g, last (visible_children node) = Some e → h !! tree e = Some g →
    offset e + ts_tree_total_size g ≤ size node + padding node.

(** A leaf of no width. *)
Definition leaf_E : TSTree :=
  mkTSTree 1 3 0 [] 0 zero 0 0 [].

Definition heap_ABE : heap := <[3 := leaf_E]> heap_AB.

(** ** Vocabulary for release *)

(** [k] references given back. *)
Definition drop_refs (k : nat) (t : TSTree) : TSTree :=
  set_ref_count t (ref_count t - Z.of_nat k).

(** The heap after one reference has been given back for every slot of
    [cs]. *)
Definition release_all (cs : list ptr) (h : heap) : heap :=
  foldl (λ h' c, alter (drop_refs 1) c h') h cs.

(** [p] roots a tree of height at most [d] that nobody else holds: every
    node has a reference count of 1, and [ps] lists its nodes, the root
    first. *)
Fixpoint unshared (d : nat) (h : heap) (p : ptr) (ps : list ptr) : Prop :=
  match d with
  | O => False
  | S d' =>
      ∃ t pss,
        h !! p = Some t ∧
        ref_count t = 1 ∧
        Forall2 (unshared d' h) (children t) pss ∧
        ps = p :: mjoin pss
  end.

(** A root, owned once, over two leaves that only the root holds. *)
Definition heap_owned : heap :=
  <[3 := mkTSTree 1 7 4 [1; 2] 2 zero 0 0
           [mkTSTreeChild 1 0; mkTSTreeChild 2 2]]> heap_AB.

(** ** Vocabulary for the flattened view *)

(** Every entry of every array of visible children names an allocated,
    visible node. *)
Definition entries_visible (h : heap) : Prop :=
  ∀ p t e,
    h !! p = Some t → e ∈ visible_children t →
    ∃ g, h !! tree e = Some g ∧ ts_tree_is_visible g = true.

(** A hidden node over A and B, as [ts_tree_make_node] builds it. *)
Definition hidden_pair : TSTree :=
  mkTSTree 1 7 4 [1; 2] 2 zero 0 TSTreeOptionsHidden
    [mkTSTreeChild 1 0; mkTSTreeChild 2 2].

Definition heap_hidden : heap := <[3 := hidden_pair]> heap_AB.

(** ** Vocabulary for the printer *)

(** Nodes that agree on what the printer reads. *)
Definition same_print (t t' : TSTree) : Prop :=
  symbol t = symbol t' ∧ options t = options t' ∧
  children t = children t' ∧ lookahead_char t = lookahead_char t'.

Global Instance same_print_dec t t' : Decision (same_print t t').
Proof. unfold same_print. apply _. Defined.

(** The node at [p] in [h'] prints as [t] does. *)
Definition prints_at (h' : heap) (p : ptr) (t : TSTree) : Prop :=
  match h' !! p with
  | Some t' => same_print t t'
  | None => False
  end.

Global Instance prints_at_dec h' p t : Decision (prints_at h' p t).
Proof. unfold prints_at. destruct (h' !! p); apply _. Defined.

(** Every node of [h] is in [h'] too, and prints alike there. *)
Definition prints_alike (h h' : heap) : Prop := map_Forall (prints_at h') h.

(** A and B with other reference counts, sizes and paddings. *)
Definition heap_AB_resized : heap :=
  <[1 := mkTSTree 4 1 10 [] 0 zero 3 0 []]>
    (<[2 := mkTSTree 2 2 0 [] 0 zero 7 0 []]> ∅).

(** Two nodes built one after the other. *)
Definition built_pair (make1 make2 : M ptr) : M (ptr * ptr) :=
  do a <- make1;
  do b <- make2;
  ret (a, b).

(** * Theorems *)

(** ** The monad and the heap *)

Lemma wrap_in_size_t z : in_size_t (wrap z).
Proof. unfold in_size_t, wrap, SIZE_MODULUS. apply Z.mod_pos_bound. lia. Qed.

Lemma wrap_small z : in_size_t z → wrap z = z.
Proof. unfold in_size_t, wrap. intros Hz. by apply Z.mod_small. Qed.

Lemma wrap_add_l a b : wrap (wrap a + b) = wrap (a + b).
Proof. unfold wrap. by rewrite Zplus_mod_idemp_l. Qed.



Lemma same_fields_bump k t : same_fields (bump k t) t.
Proof. done. Qed.

Lemma same_fields_trans t1 t2 t3 :
  same_fields t1 t2 → same_fields t2 t3 → same_fields t1 t3.
Proof. unfold same_fields. congruence. Qed.

Lemma same_fields_proj t t' :
  same_fields t t' →
  symbol t = symbol t' ∧ size t = size t' ∧ children t = children t' ∧
  visible_child_count t = visible_child_count t' ∧
  lookahead_char t = lookahead_char t' ∧ padding t = padding t' ∧
  options t = options t' ∧ visible_children t = visible_children t'.
Proof.
  destruct t, t'. unfold same_fields, set_ref_count. simpl.
  intros [= -> -> -> -> -> -> -> ->]. done.
Qed.

Lemma same_fields_visible t t' :
  same_fields t t' → ts_tree_is_visible t = ts_tree_is_visible t'.
Proof.
  intros H. apply same_fields_proj in H. unfold ts_tree_is_visible.
  destruct H as (_ & _ & _ & _ & _ & _ & -> & _). done.
Qed.

Lemma same_fields_wrapper t t' :
  same_fields t t' → ts_tree_is_wrapper t = ts_tree_is_wrapper t'.
Proof.
  intros H. apply same_fields_proj in H. unfold ts_tree_is_wrapper.
  destruct H as (_ & _ & _ & _ & _ & _ & -> & _). done.
Qed.

Lemma fields_at_lookup (h : heap) p t : h !! p = Some t → fields_at h p t.
Proof. intros H. exists t. done. Qed.

Lemma bump_bump k t : bump k (bump 1 t) = bump (S k) t.
Proof.
  unfold bump, set_ref_count. simpl. f_equal.
  induction k as [|k IH]; simpl; [done|]. by rewrite IH.
Qed.

Lemma bump_0 t : bump 0 t = t.
Proof. by destruct t. Qed.


Lemma retain_all_lookup cs (h : heap) p :
  retain_all cs h !! p = bump (slots_of p cs) <$> h !! p.
Proof.
  revert h. induction cs as [|c cs IH]; intros h; simpl.
  - destruct (h !! p) as [t|]; simpl; [by rewrite bump_0|done].
  - unfold retain_all in *. simpl. rewrite IH. unfold slots_of.
    rewrite filter_cons. destruct (decide (c = p)) as [->|Hne].
    + rewrite lookup_alter_eq. destruct (h !! p) as [t|]; simpl; [|done].
      by rewrite bump_bump.
    + by rewrite lookup_alter_ne.
Qed.

Lemma retain_all_dom cs (h : heap) : dom (retain_all cs h) = dom h.
Proof.
  apply set_eq. intros p. rewrite !elem_of_dom, retain_all_lookup.
  by rewrite fmap_is_Some.
Qed.

Lemma fresh_ptr_fresh (h : heap) : h !! fresh_ptr h = None.
Proof.
  apply not_elem_of_dom. intros Hin.
  apply (is_fresh ({[NULL]} ∪ dom h)). set_solver.
Qed.

Lemma fresh_ptr_not_null (h : heap) : fresh_ptr h ≠ NULL.
Proof.
  intros Heq. apply (is_fresh ({[NULL]} ∪ dom h)).
  unfold fresh_ptr in Heq. rewrite Heq. set_solver.
Qed.

Lemma fresh_ptr_retain_all cs (h : heap) :
  fresh_ptr (retain_all cs h) = fresh_ptr h.
Proof. unfold fresh_ptr. by rewrite retain_all_dom. Qed.

Lemma ts_tree_retain_run (h : heap) p t :
  h !! p = Some t → ts_tree_retain p h = Some (tt, alter (bump 1) p h).
Proof.
  intros H. unfold ts_tree_retain, bind, load, store. rewrite H. simpl.
  rewrite H. do 2 f_equal. apply map_eq. intros q.
  destruct (decide (p = q)) as [->|Hne].
  - by rewrite lookup_insert_eq, lookup_alter_eq, H.
  - by rewrite lookup_insert_ne, lookup_alter_ne.
Qed.

Lemma fields_at_retain (h : heap) c p t :
  fields_at h p t → fields_at (alter (bump 1) c h) p t.
Proof.
  intros (t' & Hp & Hs). destruct (decide (c = p)) as [->|Hne].
  - exists (bump 1 t'). rewrite lookup_alter_eq, Hp. split; [done|].
    eapply same_fields_trans; [apply same_fields_bump|done].
  - exists t'. by rewrite lookup_alter_ne.
Qed.

Lemma fields_at_insert_fresh (h : heap) r node p t :
  h !! r = None → fields_at h p t → fields_at (<[r := node]> h) p t.
Proof.
  intros Hr (t' & Hp & Hs). exists t'. split; [|done].
  rewrite lookup_insert_ne; [done|]. intros ->. congruence.
Qed.

Lemma fields_at_retain_all cs (h : heap) p t :
  fields_at h p t → fields_at (retain_all cs h) p t.
Proof.
  intros (t' & Hp & Hs). exists (bump (slots_of p cs) t').
  rewrite retain_all_lookup, Hp. split; [done|].
  eapply same_fields_trans; [apply same_fields_bump|done].
Qed.

(** ** The loops of [ts_tree_make_node] *)

Lemma extent_loop_run cs : ∀ ts i sz pad vcc (h : heap),
  Forall2 (fields_at h) cs ts →
  extent_loop i cs sz pad vcc h
  = Some (extent_of i ts sz pad vcc, retain_all cs h).
Proof.
  induction cs as [|c cs IH]; intros ts i sz pad vcc h Hall.
  - apply Forall2_nil_inv_l in Hall as ->. done.
  - apply Forall2_cons_inv_l in Hall as (t & ts' & Hc & Hall & ->).
    destruct Hc as (t' & Hc & Hs). cbn [extent_loop]. unfold bind at 1.
    rewrite (ts_tree_retain_run h c t' Hc). unfold bind at 1, load.
    rewrite lookup_alter_eq, Hc. cbn [fmap option_fmap option_map].
    assert (Hs' : same_fields (bump 1 t') t)
      by (eapply same_fields_trans; [apply same_fields_bump|done]).
    rewrite (same_fields_visible _ _ Hs').
    apply same_fields_proj in Hs'
      as (_ & -> & _ & -> & _ & -> & _ & _).
    rewrite (IH ts'); [done|].
    eapply Forall2_impl; [exact Hall|]. intros p q. apply fields_at_retain.
Qed.

Lemma copy_grandchildren_run count : ∀ j gc off vis,
  (j + count ≤ length gc)%nat →
  copy_grandchildren count j gc off vis
  = Some (vis ++ map (shift_child off) (take count (drop j gc))).
Proof.
  induction count as [|count IH]; intros j gc off vis Hlen;
    cbn [copy_grandchildren].
  - by rewrite take_0, app_nil_r.
  - destruct (gc !! j) as [g|] eqn:Hg.
    2:{ apply lookup_ge_None in Hg. lia. }
    rewrite IH by lia. f_equal.
    rewrite (drop_S gc g j Hg). simpl. by rewrite <- app_assoc.
Qed.

Lemma offset_loop_run cs : ∀ ts i off vis (h : heap),
  Forall2 (fields_at h) cs ts →
  Forall node_ok ts →
  offset_loop i cs off vis h = Some (vis ++ flatten_from i cs ts off, h).
Proof.
  induction cs as [|c cs IH]; intros ts i off vis h Hall Hok.
  - apply Forall2_nil_inv_l in Hall as ->. simpl. unfold ret.
    by rewrite app_nil_r.
  - apply Forall2_cons_inv_l in Hall as (t & ts' & Hc & Hall & ->).
    apply Forall_cons in Hok as [(_ & _ & Hvcc) Hok].
    destruct Hc as (t' & Hc & Hs). cbn [offset_loop flatten_from].
    unfold bind at 1, load, ts_tree_visible_children.
    rewrite Hc. rewrite (same_fields_visible _ _ Hs).
    apply same_fields_proj in Hs
      as (_ & -> & _ & -> & _ & -> & _ & ->).
    unfold entries_of. destruct (ts_tree_is_visible t).
    + unfold bind at 1, ret. rewrite (IH ts') by done.
      by rewrite <- app_assoc.
    + unfold bind at 1, lift.
      rewrite copy_grandchildren_run by (simpl; lia).
      rewrite drop_0, Hvcc, Nat2Z.id, firstn_all.
      rewrite (IH ts') by done. by rewrite <- app_assoc.
Qed.

Lemma wraps_single_child_run cs ts (h : heap) :
  Forall2 (fields_at h) cs ts →
  wraps_single_child cs h = Some (single_wrapped ts, h).
Proof.
  intros Hall. destruct Hall as [|c t cs' ts' Hc Hall]; [done|].
  destruct Hall as [|c2 t2 cs2 ts2 Hc2 Hall]; [|done].
  destruct Hc as (t' & Hc & Hs). simpl. unfold bind, load, ret.
  rewrite Hc. by rewrite (same_fields_visible _ _ Hs),
    (same_fields_wrapper _ _ Hs).
Qed.

(** The run of [ts_tree_make_node] on allocated children: a fresh node
    with the fields [node_of] lists, in the heap where every child slot has
    been retained. *)
Lemma ts_tree_make_node_run symbol cs ts is_hidden (h : heap) :
  Forall2 (fields_at h) cs ts →
  Forall node_ok ts →
  ts_tree_make_node symbol cs is_hidden h
  = Some (fresh_ptr h,
          <[fresh_ptr h := node_of symbol cs ts is_hidden]>
            (retain_all cs h)).
Proof.
  intros Hall Hok. unfold ts_tree_make_node. unfold bind at 1.
  rewrite (extent_loop_run cs ts) by done.
  destruct (extent_of 0 ts 0 0 0) as [[sz pad] vcc] eqn:Hext.
  assert (Hall' : Forall2 (fields_at (retain_all cs h)) cs ts).
  { eapply Forall2_impl; [exact Hall|]. intros p q.
    apply fields_at_retain_all. }
  unfold bind at 1. rewrite (wraps_single_child_run cs ts) by done.
  unfold bind at 1, malloc. rewrite fresh_ptr_retain_all.
  assert (Hfresh : retain_all cs h !! fresh_ptr h = None)
    by (by rewrite retain_all_lookup, fresh_ptr_fresh).
  set (r := fresh_ptr h) in *. unfold bind at 1.
  rewrite (offset_loop_run cs ts); [|
    eapply Forall2_impl; [exact Hall'|]; intros p q;
    by apply fields_at_insert_fresh | done].
  unfold bind, load, store, ret. rewrite !lookup_insert_eq.
  rewrite insert_insert_eq. unfold node_of, options_of. rewrite Hext.
  done.
Qed.

Lemma ts_tree_make_leaf_run sym sz pad is_hidden (h : heap) :
  ts_tree_make_leaf sym sz pad is_hidden h
  = Some (fresh_ptr h,
          <[fresh_ptr h :=
              mkTSTree 1 sym sz [] 0 zero pad
                (if is_hidden then TSTreeOptionsHidden else 0) []]> h).
Proof. done. Qed.

(** ** Extent and visible-child count *)

Lemma extent_of_padding ts : ∀ i sz pad vcc,
  (extent_of (S i) ts sz pad vcc).1.2 = pad.
Proof. induction ts as [|t ts IH]; intros; simpl; [done|]. apply IH. Qed.

Lemma extent_of_size ts : ∀ i sz pad vcc,
  in_size_t sz →
  (extent_of (S i) ts sz pad vcc).1.1
  = wrap (sz + Z_sum (map later_extent ts)).
Proof.
  induction ts as [|t ts IH]; intros i sz pad vcc Hsz; simpl.
  - by rewrite Z.add_0_r, wrap_small.
  - rewrite IH by apply wrap_in_size_t. rewrite wrap_add_l.
    replace (sz + wrap (padding t + size t) + Z_sum (map later_extent ts))
      with (wrap (padding t + size t) + (sz + Z_sum (map later_extent ts)))
      by lia.
    rewrite wrap_add_l. unfold later_extent. f_equal. lia.
Qed.

Lemma extent_of_count ts : ∀ i sz pad vcc,
  in_size_t vcc →
  (extent_of i ts sz pad vcc).2
  = wrap (vcc + Z_sum (map visible_weight ts)).
Proof.
  induction ts as [|t ts IH]; intros i sz pad vcc Hv; simpl.
  - by rewrite Z.add_0_r, wrap_small.
  - unfold visible_weight at 1. destruct (ts_tree_is_visible t);
      rewrite IH by apply wrap_in_size_t; rewrite wrap_add_l;
      f_equal; lia.
Qed.

Lemma in_size_t_0 : in_size_t 0.
Proof. unfold in_size_t, SIZE_MODULUS. lia. Qed.

Lemma later_extent_nonneg ts :
  Forall node_ok ts → 0 ≤ Z_sum (map later_extent ts).
Proof.
  induction 1 as [|t ts (Hs & Hp & _) _ IH]; simpl; [done|].
  unfold later_extent, in_size_t in *. lia.
Qed.

Lemma visible_weight_length ts :
  Forall node_ok ts →
  Z_sum (map visible_weight ts)
  = Z_sum (map (λ t, Z.of_nat (length (entries_of 0 t 0))) ts).
Proof.
  induction 1 as [|t ts (_ & _ & Hv) _ IH]; simpl; [done|].
  rewrite IH. f_equal. unfold visible_weight, entries_of.
  destruct (ts_tree_is_visible t); [done|]. by rewrite length_map.
Qed.

Lemma flatten_from_length cs : ∀ ts i off,
  length cs = length ts →
  Z.of_nat (length (flatten_from i cs ts off))
  = Z_sum (map (λ t, Z.of_nat (length (entries_of 0 t 0))) ts).
Proof.
  induction cs as [|c cs IH]; intros [|t ts] i off Hlen; simpl in *;
    try done.
  rewrite length_app, Nat2Z.inj_add, IH by lia. f_equal.
  unfold entries_of. destruct (ts_tree_is_visible t); [done|].
  by rewrite !length_map.
Qed.

Lemma heap_ok_lookups (h : heap) cs ts :
  heap_ok h → Forall2 (λ c t, h !! c = Some t) cs ts → Forall node_ok ts.
Proof.
  intros Hok Hall. induction Hall as [|c t cs ts Hc _ IH]; [done|].
  constructor; [|done]. exact (Hok c t Hc).
Qed.

Lemma lookups_fields_at (h : heap) cs ts :
  Forall2 (λ c t, h !! c = Some t) cs ts → Forall2 (fields_at h) cs ts.
Proof.
  intros Hall. eapply Forall2_impl; [exact Hall|]. intros c t.
  apply fields_at_lookup.
Qed.

(** C1.  A node built over the children [c0 :: cs] takes its padding from
    [c0]; its size is the size of [c0] plus the paddings and sizes of the
    other children, added in [size_t] arithmetic, hence the exact sum
    whenever that sum fits in a [size_t]. *)
Theorem make_node_extent (h : heap) symbol is_hidden c0 t0 cs ts :
  heap_ok h →
  h !! c0 = Some t0 →
  Forall2 (λ c t, h !! c = Some t) cs ts →
  ∃ r h' node,
    ts_tree_make_node symbol (c0 :: cs) is_hidden h = Some (r, h') ∧
    h !! r = None ∧
    h' !! r = Some node ∧
    padding node = padding t0 ∧
    size node = wrap (size t0 + Z_sum (map later_extent ts)) ∧
    (size t0 + Z_sum (map later_extent ts) < SIZE_MODULUS →
     size node = size t0 + Z_sum (map later_extent ts)).
Proof.
  intros Hok Hc0 Hcs.
  assert (Hall : Forall2 (λ c t, h !! c = Some t) (c0 :: cs) (t0 :: ts))
    by (by constructor).
  pose proof (heap_ok_lookups _ _ _ Hok Hall) as Hnodes.
  eexists _, _, _. split.
  { apply (ts_tree_make_node_run symbol (c0 :: cs) (t0 :: ts));
      [by apply lookups_fields_at|done]. }
  split; [apply fresh_ptr_fresh|]. split; [apply lookup_insert_eq|].
  apply Forall_cons in Hnodes as [(Hs0 & _) Hnodes].
  simpl. rewrite extent_of_padding, extent_of_size by done.
  split; [done|]. split; [done|]. intros Hfit. apply wrap_small.
  pose proof (later_extent_nonneg ts Hnodes). unfold in_size_t in *. lia.
Qed.

Lemma heap_AB_ok : heap_ok heap_AB.
Proof. unfold heap_ok. compute_done. Qed.

(** The theorem on a node built over A and B. *)
Lemma make_node_extent_witness :
  ∃ r h' node,
    ts_tree_make_node 7 [1; 2] false heap_AB = Some (r, h') ∧
    heap_AB !! r = None ∧
    h' !! r = Some node ∧
    padding node = padding leaf_A ∧
    size node = wrap (size leaf_A + Z_sum (map later_extent [leaf_B])) ∧
    (size leaf_A + Z_sum (map later_extent [leaf_B]) < SIZE_MODULUS →
     size node = size leaf_A + Z_sum (map later_extent [leaf_B])).
Proof.
  apply (make_node_extent heap_AB 7 false 1 leaf_A [2] [leaf_B]).
  - exact heap_AB_ok.
  - reflexivity.
  - repeat constructor.
Defined.

Lemma visible_weight_nonneg ts :
  Forall node_ok ts → 0 ≤ Z_sum (map visible_weight ts).
Proof.
  induction 1 as [|t ts (_ & _ & Hv) _ IH]; [done|].
  change (0 ≤ visible_weight t + Z_sum (map visible_weight ts)).
  unfold visible_weight at 1. destruct (ts_tree_is_visible t); lia.
Qed.

(** C2.  The visible-child count of a built node is the sum, over its
    children, of 1 for a visible child and of the child's own count for a
    hidden one; the sum is taken in [size_t] arithmetic, it is exact when it
    fits, and it is then the length of the array of visible children. *)
Theorem make_node_visible_count (h : heap) symbol is_hidden cs ts :
  heap_ok h →
  Forall2 (λ c t, h !! c = Some t) cs ts →
  ∃ r h' node,
    ts_tree_make_node symbol cs is_hidden h = Some (r, h') ∧
    h' !! r = Some node ∧
    visible_child_count node = wrap (Z_sum (map visible_weight ts)) ∧
    (Z_sum (map visible_weight ts) < SIZE_MODULUS →
     visible_child_count node = Z_sum (map visible_weight ts)) ∧
    Z.of_nat (length (visible_children node))
    = Z_sum (map visible_weight ts).
Proof.
  intros Hok Hcs.
  pose proof (heap_ok_lookups _ _ _ Hok Hcs) as Hnodes.
  eexists _, _, _. split.
  { apply (ts_tree_make_node_run symbol cs ts);
      [by apply lookups_fields_at|done]. }
  split; [apply lookup_insert_eq|]. simpl.
  rewrite extent_of_count by apply in_size_t_0. rewrite Z.add_0_l.
  split; [done|]. split.
  - intros Hfit. apply wrap_small.
    pose proof (visible_weight_nonneg ts Hnodes). unfold in_size_t. lia.
  - rewrite flatten_from_length by (by eapply Forall2_length).
    by rewrite visible_weight_length.
Qed.

(** The theorem on a hidden node built over A and B. *)
Lemma make_node_visible_count_witness :
  ∃ r h' node,
    ts_tree_make_node 7 [1; 2] true heap_AB = Some (r, h') ∧
    h' !! r = Some node ∧
    visible_child_count node
    = wrap (Z_sum (map visible_weight [leaf_A; leaf_B])) ∧
    (Z_sum (map visible_weight [leaf_A; leaf_B]) < SIZE_MODULUS →
     visible_child_count node
     = Z_sum (map visible_weight [leaf_A; leaf_B])) ∧
    Z.of_nat (length (visible_children node))
    = Z_sum (map visible_weight [leaf_A; leaf_B]).
Proof.
  apply (make_node_visible_count heap_AB 7 true [1; 2] [leaf_A; leaf_B]).
  - exact heap_AB_ok.
  - repeat constructor.
Defined.

(** C10.  Over an empty child list [ts_tree_make_node] returns a fresh node
    with padding 0, size 0, no visible children, reference count 1, the
    wrapper flag unset, and hidden exactly when [is_hidden] is set. *)
Theorem make_node_no_children (h : heap) symbol is_hidden :
  ∃ r h' node,
    ts_tree_make_node symbol [] is_hidden h = Some (r, h') ∧
    h !! r = None ∧
    h' !! r = Some node ∧
    padding node = 0 ∧
    size node = 0 ∧
    visible_child_count node = 0 ∧
    visible_children node = [] ∧
    children node = [] ∧
    ref_count node = 1 ∧
    ts_tree_is_wrapper node = false ∧
    ts_tree_is_visible node = negb is_hidden.
Proof.
  eexists _, _, _. split.
  { apply (ts_tree_make_node_run symbol [] []); constructor. }
  split; [apply fresh_ptr_fresh|]. split; [apply lookup_insert_eq|].
  by destruct is_hidden.
Qed.

(** ** The end-to-end scenario *)

(** C3, as the code has it.  With leaves A (size 1, padding 0) and B (size 2,
    padding 1), W built over B and R over A and W: R has padding 0, size 4,
    two visible children, and its array of visible children holds A at
    offset 0 and B at offset 2, the start of B's content behind its
    padding. *)
Theorem end_to_end_scenario (h : heap) sym_a sym_b sym_w sym_root :
  ∃ a b w r h' node,
    end_to_end sym_a sym_b sym_w sym_root h = Some ((a, b, w, r), h') ∧
    a ≠ b ∧
    h' !! r = Some node ∧
    padding node = 0 ∧
    size node = 4 ∧
    visible_child_count node = 2 ∧
    visible_children node = [mkTSTreeChild a 0; mkTSTreeChild b 2].
Proof.
  unfold end_to_end. unfold bind at 1. rewrite ts_tree_make_leaf_run.
  set (A := mkTSTree 1 sym_a 1 [] 0 zero 0 _ []).
  pose proof (fresh_ptr_fresh h) as Ha.
  set (a := fresh_ptr h) in *. set (h1 := <[a := A]> h).
  unfold bind at 1. rewrite ts_tree_make_leaf_run.
  set (B := mkTSTree 1 sym_b 2 [] 0 zero 1 _ []).
  pose proof (fresh_ptr_fresh h1) as Hb.
  set (b := fresh_ptr h1) in *. set (h2 := <[b := B]> h1).
  assert (Hab : a ≠ b).
  { intros Heq. rewrite <- Heq in Hb. unfold h1 in Hb.
    by rewrite lookup_insert_eq in Hb. }
  assert (HA : node_ok A) by (unfold node_ok; compute_done).
  assert (HB : node_ok B) by (unfold node_ok; compute_done).
  unfold bind at 1.
  rewrite (ts_tree_make_node_run sym_w [b] [B]); cycle 1.
  { repeat constructor. apply fields_at_lookup, lookup_insert_eq. }
  { by repeat constructor. }
  pose proof (fresh_ptr_fresh h2) as Hw.
  set (w := fresh_ptr h2) in *. set (W := node_of sym_w [b] [B] true).
  set (h3 := <[w := W]> (retain_all [b] h2)).
  assert (Hw' : retain_all [b] h2 !! w = None)
    by (by rewrite retain_all_lookup, Hw).
  assert (HW : node_ok W).
  { clearbody a b w. unfold node_ok, in_size_t. vm_compute.
    repeat split; congruence. }
  unfold bind at 1.
  rewrite (ts_tree_make_node_run sym_root [a; w] [A; W]); cycle 1.
  { repeat constructor.
    - apply fields_at_insert_fresh; [done|]. apply fields_at_retain_all.
      apply fields_at_insert_fresh; [done|].
      apply fields_at_lookup, lookup_insert_eq.
    - apply fields_at_lookup, lookup_insert_eq. }
  { by repeat constructor. }
  unfold ret. eexists a, b, w, _, _, _. split; [done|]. split; [done|].
  split; [apply lookup_insert_eq|]. clearbody a b w. clear. by vm_compute.
Qed.

(** C3, as the spec words it: B does not sit at offset 1. *)
Lemma end_to_end_offsets_counterexample :
  ¬ ∃ a b w r h' node,
      end_to_end 1 2 3 4 ∅ = Some ((a, b, w, r), h') ∧
      h' !! r = Some node ∧
      padding node = 0 ∧
      size node = 4 ∧
      visible_child_count node = 2 ∧
      visible_children node = [mkTSTreeChild a 0; mkTSTreeChild b 1].
Proof.
  intros (a & b & w & r & h' & node & Hrun & Hr & _ & _ & _ & Hvis).
  vm_compute in Hrun. injection Hrun as <- <- <- <- <-.
  vm_compute in Hr. injection Hr as <-. discriminate Hvis.
Qed.

(** ** Wrappers *)

(** C4, as the code has it.  A node built over a single child that is
    visible or a wrapper is hidden and a wrapper, whatever [is_hidden] says;
    it takes over the child's padding, and when the child is visible its
    array of visible children is that child at offset 0. *)
Theorem make_node_single_child (h : heap) symbol is_hidden c t :
  heap_ok h →
  h !! c = Some t →
  ts_tree_is_visible t || ts_tree_is_wrapper t = true →
  ∃ r h' node,
    ts_tree_make_node symbol [c] is_hidden h = Some (r, h') ∧
    h' !! r = Some node ∧
    ts_tree_is_visible node = false ∧
    ts_tree_is_wrapper node = true ∧
    padding node = padding t ∧
    (ts_tree_is_visible t = true →
     visible_child_count node = 1 ∧
     visible_children node = [mkTSTreeChild c 0]).
Proof.
  intros Hok Hc Hsingle. eexists _, _, _. split.
  { apply (ts_tree_make_node_run symbol [c] [t]).
    - repeat constructor. by apply fields_at_lookup.
    - constructor; [exact (Hok c t Hc)|constructor]. }
  split; [apply lookup_insert_eq|].
  unfold ts_tree_is_visible at 1, ts_tree_is_wrapper at 1. simpl.
  unfold options_of, single_wrapped. rewrite Hsingle.
  split; [by destruct is_hidden|]. split; [by destruct is_hidden|].
  split; [done|]. intros Hvis. unfold entries_of. rewrite Hvis. done.
Qed.

(** The theorem on a node built over B alone. *)
Lemma make_node_single_child_witness :
  ∃ r h' node,
    ts_tree_make_node 7 [2] false heap_AB = Some (r, h') ∧
    h' !! r = Some node ∧
    ts_tree_is_visible node = false ∧
    ts_tree_is_wrapper node = true ∧
    padding node = padding leaf_B ∧
    (ts_tree_is_visible leaf_B = true →
     visible_child_count node = 1 ∧
     visible_children node = [mkTSTreeChild 2 0]).
Proof.
  apply (make_node_single_child heap_AB 7 false 2 leaf_B).
  - exact heap_AB_ok.
  - reflexivity.
  - reflexivity.
Defined.

(** C4, as the spec words it: the entry of the visible child B, whose
    padding is 1, does not have that padding as its offset. *)
Lemma wrapper_entry_offset_counterexample :
  ¬ ∃ r h' node e,
      ts_tree_make_node 7 [2] false heap_AB = Some (r, h') ∧
      h' !! r = Some node ∧
      ts_tree_is_visible node = false ∧
      ts_tree_is_wrapper node = true ∧
      visible_children node = [e] ∧
      offset e = padding leaf_B.
Proof.
  intros (r & h' & node & e & Hrun & Hr & _ & _ & Hvis & Hoff).
  vm_compute in Hrun. injection Hrun as <- <-.
  vm_compute in Hr. injection Hr as <-.
  injection Hvis as <-. discriminate Hoff.
Qed.

(** ** Reference counts *)

Lemma bump_positive k t :
  (0 < k)%nat →
  bump k t = set_ref_count t (wrap (ref_count t + Z.of_nat k)).
Proof.
  intros Hk. unfold bump. f_equal. induction k as [|k IH]; [lia|].
  destruct k as [|k]; [done|].
  rewrite Nat.iter_succ, IH by lia. rewrite wrap_add_l. f_equal. lia.
Qed.

Lemma slots_of_elem p cs : p ∈ cs → (0 < slots_of p cs)%nat.
Proof.
  intros Hin. unfold slots_of.
  assert (Hp : p ∈ filter (λ c, c = p) cs) by (by apply list_elem_of_filter).
  destruct (filter (λ c, c = p) cs); [by apply elem_of_nil in Hp|].
  simpl. lia.
Qed.

Lemma slots_of_not_elem p cs : p ∉ cs → slots_of p cs = 0%nat.
Proof.
  intros Hin. unfold slots_of.
  induction cs as [|c cs IH]; [done|].
  apply not_elem_of_cons in Hin as [Hne Hin].
  rewrite filter_cons_False by done. by apply IH.
Qed.

Lemma slots_of_NoDup p cs : NoDup cs → p ∈ cs → slots_of p cs = 1%nat.
Proof.
  unfold slots_of. induction 1 as [|c cs Hc Hnd IH]; intros Hin.
  - by apply elem_of_nil in Hin.
  - apply elem_of_cons in Hin as [->|Hin].
    + rewrite filter_cons_True by done. simpl. f_equal.
      by apply slots_of_not_elem.
    + rewrite filter_cons_False; [by apply IH|]. intros ->. done.
Qed.

(** C6, as the code has it.  [ts_tree_make_node] raises the reference count
    of a child by one for every slot of the child list that holds it, in
    [size_t] arithmetic: by exactly one when the children are pairwise
    distinct.  It changes no other field of a child and no other node that
    was there before the call. *)
Theorem make_node_retains_children (h : heap) symbol is_hidden cs ts :
  heap_ok h →
  Forall2 (λ c t, h !! c = Some t) cs ts →
  ∃ r h',
    ts_tree_make_node symbol cs is_hidden h = Some (r, h') ∧
    h !! r = None ∧
    (∀ c t, c ∈ cs → h !! c = Some t →
       h' !! c
       = Some (set_ref_count t
                 (wrap (ref_count t + Z.of_nat (slots_of c cs))))) ∧
    (NoDup cs →
     ∀ c t, c ∈ cs → h !! c = Some t →
       h' !! c = Some (set_ref_count t (wrap (ref_count t + 1)))) ∧
    (∀ p, p ∉ cs → p ≠ r → h' !! p = h !! p).
Proof.
  intros Hok Hcs.
  pose proof (heap_ok_lookups _ _ _ Hok Hcs) as Hnodes.
  eexists _, _. split.
  { apply (ts_tree_make_node_run symbol cs ts);
      [by apply lookups_fields_at|done]. }
  pose proof (fresh_ptr_fresh h) as Hr. split; [done|].
  assert (Hchild : ∀ c t, c ∈ cs → h !! c = Some t →
    <[fresh_ptr h := node_of symbol cs ts is_hidden]> (retain_all cs h) !! c
    = Some (set_ref_count t
              (wrap (ref_count t + Z.of_nat (slots_of c cs))))).
  { intros c t Hin Hc. rewrite lookup_insert_ne by congruence.
    rewrite retain_all_lookup, Hc. simpl.
    by rewrite bump_positive by by apply slots_of_elem. }
  split; [done|]. split.
  - intros Hnd c t Hin Hc. rewrite (Hchild c t Hin Hc).
    by rewrite slots_of_NoDup.
  - intros p Hp Hpr. rewrite lookup_insert_ne by done.
    rewrite retain_all_lookup, slots_of_not_elem by done.
    destruct (h !! p) as [t|]; simpl; [by rewrite bump_0|done].
Qed.

(** The theorem on a node that holds A in two of its three slots. *)
Lemma make_node_retains_children_witness :
  ∃ r h',
    ts_tree_make_node 7 [1; 2; 1] false heap_AB = Some (r, h') ∧
    heap_AB !! r = None ∧
    (∀ c t, c ∈ [1; 2; 1] → heap_AB !! c = Some t →
       h' !! c
       = Some (set_ref_count t
                 (wrap (ref_count t + Z.of_nat (slots_of c [1; 2; 1]))))) ∧
    (NoDup [1; 2; 1] →
     ∀ c t, c ∈ [1; 2; 1] → heap_AB !! c = Some t →
       h' !! c = Some (set_ref_count t (wrap (ref_count t + 1)))) ∧
    (∀ p, p ∉ [1; 2; 1] → p ≠ r → h' !! p = heap_AB !! p).
Proof.
  apply (make_node_retains_children heap_AB 7 false [1; 2; 1]
           [leaf_A; leaf_B; leaf_A]).
  - exact heap_AB_ok.
  - repeat constructor.
Defined.

(** C6, as the spec words it: a child that fills two slots of the child
    list does not end with its earlier count plus one. *)
Lemma retain_once_counterexample :
  ¬ ∃ r h' t',
      ts_tree_make_node 7 [1; 1] false heap_AB = Some (r, h') ∧
      h' !! 1 = Some t' ∧
      ref_count t' = ref_count leaf_A + 1.
Proof.
  intros (r & h' & t' & Hrun & Ht' & Hrc).
  vm_compute in Hrun. injection Hrun as <- <-.
  vm_compute in Ht'. injection Ht' as <-. discriminate Hrc.
Qed.

(** ** Offsets of the visible children *)

Lemma placed_weaken (h : heap) vs : ∀ lo lo' hi hi',
  lo' ≤ lo → hi ≤ hi' → placed h lo vs hi → placed h lo' vs hi'.
Proof.
  induction vs as [|e vs IH]; intros lo lo' hi hi' Hlo Hhi; simpl.
  - lia.
  - intros [Hle Hrest]. split; [lia|].
    destruct (h !! tree e) as [g|]; [|done].
    by apply (IH (offset e + size g) _ hi).
Qed.

Lemma placed_bounds (h : heap) vs : ∀ lo hi,
  (∀ p g, h !! p = Some g → 0 ≤ size g) → placed h lo vs hi → lo ≤ hi.
Proof.
  intros lo hi Hsizes. revert lo.
  induction vs as [|e vs IH]; intros lo; simpl; [done|].
  intros [Hle Hrest]. destruct (h !! tree e) as [g|] eqn:Hg; [|done].
  apply IH in Hrest. pose proof (Hsizes _ _ Hg). lia.
Qed.

Lemma heap_ok_sizes (h : heap) p g :
  heap_ok h → h !! p = Some g → 0 ≤ size g.
Proof. intros Hok Hg. destruct (Hok _ _ Hg) as ([Hs _] & _). done. Qed.

Lemma placed_app (h : heap) vs ws : ∀ lo mid hi,
  placed h lo vs mid → placed h mid ws hi → placed h lo (vs ++ ws) hi.
Proof.
  induction vs as [|e vs IH]; intros lo mid hi; simpl.
  - intros Hle Hws. by apply (placed_weaken h ws mid lo hi hi).
  - intros [Hle Hrest] Hws. split; [done|].
    destruct (h !! tree e) as [g|]; [|done]. by apply (IH _ mid).
Qed.

Lemma placed_shift (h : heap) k vs : ∀ lo hi,
  heap_ok h → 0 ≤ k → 0 ≤ lo → k + hi < SIZE_MODULUS →
  placed h lo vs hi →
  placed h (k + lo) (map (shift_child k) vs) (k + hi).
Proof.
  intros lo hi Hok Hk. revert lo.
  induction vs as [|e vs IH]; intros lo Hlo Hhi; simpl; [lia|].
  intros [Hle Hrest]. destruct (h !! tree e) as [g|] eqn:Hg; [|done].
  pose proof (placed_bounds h _ _ _
                (λ p g, heap_ok_sizes h p g Hok) Hrest) as Hend.
  pose proof (heap_ok_sizes _ _ _ Hok Hg) as Hs.
  rewrite wrap_small by (unfold in_size_t; lia).
  split; [lia|]. rewrite <- Z.add_assoc. apply IH; [lia|done|done].
Qed.

Lemma placed_heap (h h' : heap) vs : ∀ lo hi,
  (∀ p g, h !! p = Some g → ∃ g', h' !! p = Some g' ∧ size g' = size g) →
  placed h lo vs hi → placed h' lo vs hi.
Proof.
  intros lo hi Hsame. revert lo.
  induction vs as [|e vs IH]; intros lo; simpl; [done|].
  intros [Hle Hrest]. split; [done|].
  destruct (h !! tree e) as [g|] eqn:Hg; [|done].
  destruct (Hsame _ _ Hg) as (g' & -> & ->). by apply IH.
Qed.

Lemma placed_consecutive (h : heap) vs : ∀ lo hi i e1 e2,
  placed h lo vs hi →
  vs !! i = Some e1 → vs !! S i = Some e2 →
  ∃ g1, h !! tree e1 = Some g1 ∧ offset e1 + size g1 ≤ offset e2.
Proof.
  induction vs as [|e vs IH]; intros lo hi i e1 e2; simpl; [done|].
  intros [Hle Hrest] H1 H2.
  destruct (h !! tree e) as [g|] eqn:Hg; [|done].
  destruct i as [|i]; simpl in *.
  - injection H1 as <-. exists g. split; [done|].
    destruct vs as [|e' vs]; [done|]. simpl in *.
    injection H2 as <-. by destruct Hrest.
  - by apply (IH (offset e + size g) hi i).
Qed.

Lemma placed_last (h : heap) vs : ∀ lo hi e,
  (∀ p g, h !! p = Some g → 0 ≤ size g) →
  placed h lo vs hi →
  last vs = Some e →
  ∃ g, h !! tree e = Some g ∧ lo ≤ offset e ∧ offset e + size g ≤ hi.
Proof.
  intros lo hi e0 Hsizes. revert lo.
  induction vs as [|e vs IH]; intros lo; simpl; [done|].
  intros [Hle Hrest] Hlast.
  destruct (h !! tree e) as [g|] eqn:Hg; [|done].
  destruct vs as [|e' vs].
  - injection Hlast as <-. exists g. simpl in Hrest. done.
  - destruct (IH _ Hrest Hlast) as (g0 & Hg0 & Hlo & Hhi).
    exists g0. split; [done|]. split; [|done].
    pose proof (Hsizes _ _ Hg). lia.
Qed.

Lemma span_S i ts : span (S i) ts = Z_sum (map later_extent ts).
Proof. by destruct ts. Qed.

Lemma span_nonneg i ts : Forall node_ok ts → 0 ≤ span i ts.
Proof.
  intros Hok. destruct Hok as [|t ts (Hs & Hp & _) Hok]; simpl; [done|].
  pose proof (later_extent_nonneg ts Hok). unfold in_size_t in *.
  destruct (0 <? i)%nat; lia.
Qed.

(** The second loop places the entries one behind the other. *)
Lemma flatten_placed (h : heap) cs : ∀ ts i off,
  heap_ok h →
  Forall2 (λ c t, h !! c = Some t) cs ts →
  Forall (node_placed h) ts →
  0 ≤ off →
  off + span i ts < SIZE_MODULUS →
  placed h off (flatten_from i cs ts off) (off + span i ts).
Proof.
  induction cs as [|c cs IH]; intros ts i off Hok Hall Hpl Hoff Hfit.
  - apply Forall2_nil_inv_l in Hall as ->. simpl. lia.
  - apply Forall2_cons_inv_l in Hall as (t & ts' & Hc & Hall & ->).
    apply Forall_cons in Hpl as [Ht Hpl].
    pose proof (heap_ok_lookups _ _ _ Hok Hall) as Hnodes.
    destruct (Hok _ _ Hc) as ((Hs0 & _) & (Hp0 & _) & _).
    pose proof (later_extent_nonneg ts' Hnodes) as Hrest.
    cbn [flatten_from]. cbn [span] in Hfit |- *.
    set (pad := if (0 <? i)%nat then padding t else 0) in *.
    assert (Hpad : 0 ≤ pad) by (unfold pad; destruct (0 <? i)%nat; lia).
    assert (Hoff' : (if (0 <? i)%nat then wrap (off + padding t) else off)
                    = off + pad).
    { unfold pad. destruct (0 <? i)%nat; [|lia].
      apply wrap_small. unfold in_size_t. lia. }
    rewrite Hoff'. rewrite (wrap_small (off + pad + size t))
      by (unfold in_size_t; lia).
    apply (placed_app h _ _ off (off + pad + size t)).
    + unfold entries_of. destruct (ts_tree_is_visible t).
      * simpl. rewrite Hc. simpl. lia.
      * apply (placed_weaken h _ (off + pad + 0) off
                 (off + pad + size t) (off + pad + size t)); [lia|lia|].
        apply placed_shift; [done|lia|lia|lia|done].
    + replace (off + (pad + size t + Z_sum (map later_extent ts')))
        with (off + pad + size t + span (S i) ts')
        by (rewrite span_S; lia).
      apply IH; [done|done|done|lia|rewrite span_S; lia].
Qed.

Lemma extent_of_span ts :
  Forall node_ok ts →
  span 0 ts < SIZE_MODULUS →
  (extent_of 0 ts 0 0 0).1.1 = span 0 ts.
Proof.
  intros Hok Hfit. destruct Hok as [|t ts (Hs & Hp & _) Hok]; [done|].
  simpl in *. rewrite extent_of_size by done.
  pose proof (later_extent_nonneg ts Hok).
  apply wrap_small. unfold in_size_t in *. lia.
Qed.

(** The placement of the entries of a freshly built node. *)
Lemma make_node_placed (h : heap) symbol is_hidden cs ts :
  heap_placed h →
  Forall2 (λ c t, h !! c = Some t) cs ts →
  span 0 ts < SIZE_MODULUS →
  node_placed
    (<[fresh_ptr h := node_of symbol cs ts is_hidden]> (retain_all cs h))
    (node_of symbol cs ts is_hidden).
Proof.
  intros [Hok Hpl] Hcs Hfit.
  pose proof (heap_ok_lookups _ _ _ Hok Hcs) as Hnodes.
  unfold node_placed. simpl. rewrite extent_of_span by done.
  apply (placed_heap h).
  { intros p g Hg. rewrite lookup_insert_ne.
    2:{ intros Heq. rewrite <- Heq, fresh_ptr_fresh in Hg. done. }
    rewrite retain_all_lookup, Hg. simpl. eexists. split; [done|done]. }
  apply (flatten_placed h cs ts 0 0); [done|done| |done|lia].
  clear Hfit Hnodes. induction Hcs as [|c t cs ts Hc _ IH]; [done|].
  constructor; [|done]. exact (Hpl c t Hc).
Qed.

(** C5, as the code has it.  In a node built over children whose span fits
    in a [size_t], every entry of the array of visible children starts at or
    behind the end of the content of the entry before it, so the offsets
    never decrease and they increase wherever the earlier entry has a content
    of non-zero size; and the content of the last entry ends within the
    node's size. *)
Theorem make_node_offsets (h : heap) symbol is_hidden cs ts :
  heap_placed h →
  Forall2 (λ c t, h !! c = Some t) cs ts →
  span 0 ts < SIZE_MODULUS →
  ∃ r h' node,
    ts_tree_make_node symbol cs is_hidden h = Some (r, h') ∧
    h' !! r = Some node ∧
    (∀ i e1 e2,
       visible_children node !! i = Some e1 →
       visible_children node !! S i = Some e2 →
       ∃ g1, h' !! tree e1 = Some g1 ∧
             0 ≤ size g1 ∧
             offset e1 + size g1 ≤ offset e2) ∧
    (∀ e, last (visible_children node) = Some e →
       ∃ g, h' !! tree e = Some g ∧
            0 ≤ offset e ∧
            offset e + size g ≤ size node).
Proof.
  intros Hpl Hcs Hfit.
  pose proof (make_node_placed h symbol is_hidden cs ts Hpl Hcs Hfit) as Hnode.
  destruct Hpl as [Hok Hpl].
  pose proof (heap_ok_lookups _ _ _ Hok Hcs) as Hnodes.
  eexists _, _, _. split.
  { apply (ts_tree_make_node_run symbol cs ts);
      [by apply lookups_fields_at|done]. }
  split; [apply lookup_insert_eq|].
  set (node := node_of symbol cs ts is_hidden) in *.
  set (h' := <[fresh_ptr h := node]> (retain_all cs h)) in *.
  assert (Hsizes : ∀ p g, h' !! p = Some g → 0 ≤ size g).
  { intros p g. unfold h'.
    destruct (decide (p = fresh_ptr h)) as [->|Hne].
    - rewrite lookup_insert_eq. intros [= <-].
      unfold node. simpl. rewrite extent_of_span by done.
      by apply span_nonneg.
    - rewrite lookup_insert_ne, retain_all_lookup by done.
      destruct (h !! p) as [g0|] eqn:Hg0; [|done]. simpl. intros [= <-].
      destruct (Hok _ _ Hg0) as ([Hs _] & _). done. }
  split.
  - intros i e1 e2 H1 H2.
    destruct (placed_consecutive h' _ _ _ i e1 e2 Hnode H1 H2)
      as (g1 & Hg1 & Hle).
    exists g1. split; [done|]. split; [by eapply Hsizes|done].
  - intros e Hlast.
    destruct (placed_last h' _ 0 _ e Hsizes Hnode Hlast)
      as (g & Hg & Hlo & Hhi).
    by exists g.
Qed.

Lemma heap_AB_placed : heap_placed heap_AB.
Proof. unfold heap_placed, heap_ok. split; compute_done. Qed.

(** The theorem on a node built over A and B. *)
Lemma make_node_offsets_witness :
  ∃ r h' node,
    ts_tree_make_node 7 [1; 2] false heap_AB = Some (r, h') ∧
    h' !! r = Some node ∧
    (∀ i e1 e2,
       visible_children node !! i = Some e1 →
       visible_children node !! S i = Some e2 →
       ∃ g1, h' !! tree e1 = Some g1 ∧
             0 ≤ size g1 ∧
             offset e1 + size g1 ≤ offset e2) ∧
    (∀ e, last (visible_children node) = Some e →
       ∃ g, h' !! tree e = Some g ∧
            0 ≤ offset e ∧
            offset e + size g ≤ size node).
Proof.
  apply (make_node_offsets heap_AB 7 false [1; 2] [leaf_A; leaf_B]).
  - exact heap_AB_placed.
  - repeat constructor.
  - reflexivity.
Defined.

(** C5, as the spec words it.  Over the leaf of no width, A and B the node
    lists the first two at the same offset 0, and B, the last entry, at
    offset 2 with a total extent of 3, which ends behind the node's size 4
    and padding 0. *)
Lemma offsets_counterexample :
  ∃ r h' node,
    ts_tree_make_node 7 [3; 1; 2] false heap_ABE = Some (r, h') ∧
    h' !! r = Some node ∧
    ¬ offsets_strictly_increasing (visible_children node) ∧
    ¬ last_extent_within h' node.
Proof.
  eexists _, _, _. split; [by vm_compute|]. split; [by vm_compute|]. split.
  - intros H.
    specialize (H 0%nat (mkTSTreeChild 3 0) (mkTSTreeChild 1 0)
                  eq_refl eq_refl).
    simpl in H. lia.
  - intros H.
    specialize (H (mkTSTreeChild 2 2) (set_ref_count leaf_B 2)
                  eq_refl eq_refl).
    vm_compute in H. by apply H.
Qed.

(** ** The invariant is kept *)

Lemma heap_placed_empty : heap_placed ∅.
Proof. split; apply map_Forall_empty. Qed.

Lemma node_ok_same_fields t t' : same_fields t t' → node_ok t' → node_ok t.
Proof.
  intros H. apply same_fields_proj in H
    as (_ & Hs & _ & Hv & _ & Hp & _ & Hvs).
  unfold node_ok. by rewrite Hs, Hv, Hp, Hvs.
Qed.

Lemma make_leaf_heap_placed (h : heap) sym sz pad is_hidden :
  heap_placed h → in_size_t sz → in_size_t pad →
  ∃ r h',
    ts_tree_make_leaf sym sz pad is_hidden h = Some (r, h') ∧
    heap_placed h'.
Proof.
  intros [Hok Hpl] Hsz Hpad. eexists _, _.
  split; [apply ts_tree_make_leaf_run|].
  pose proof (fresh_ptr_fresh h) as Hr. split.
  - apply map_Forall_insert; [done|]. split; [|done].
    unfold node_ok. simpl. done.
  - apply map_Forall_insert; [done|]. split.
    + unfold node_placed. simpl. by destruct Hsz.
    + intros p t Hp. apply (placed_heap h); [|by apply (Hpl p t)].
      intros q g Hg. exists g. split; [|done].
      rewrite lookup_insert_ne; [done|]. intros <-. congruence.
Qed.

Lemma extent_of_padding_first ts :
  Forall node_ok ts → in_size_t (extent_of 0 ts 0 0 0).1.2.
Proof.
  intros Hok. destruct Hok as [|t ts (_ & Hp & _) Hok];
    [apply in_size_t_0|].
  simpl. by rewrite extent_of_padding.
Qed.

(** X9.  [ts_tree_make_node] keeps the invariant of the heap: when the span
    and the count of visible children fit in a [size_t], every node of the
    new heap, the new one included, has its [size_t] fields in range, an
    array of visible children of the recorded length, and entries that lie
    in order within its size. *)
Lemma make_node_heap_placed (h : heap) symbol is_hidden cs ts :
  heap_placed h →
  Forall2 (λ c t, h !! c = Some t) cs ts →
  span 0 ts < SIZE_MODULUS →
  Z_sum (map visible_weight ts) < SIZE_MODULUS →
  ∃ r h',
    ts_tree_make_node symbol cs is_hidden h = Some (r, h') ∧
    heap_placed h'.
Proof.
  intros Hpl Hcs Hfit Hcount.
  pose proof (make_node_placed h symbol is_hidden cs ts Hpl Hcs Hfit)
    as Hnode.
  destruct Hpl as [Hok Hpl].
  pose proof (heap_ok_lookups _ _ _ Hok Hcs) as Hnodes.
  eexists _, _. split.
  { apply (ts_tree_make_node_run symbol cs ts);
      [by apply lookups_fields_at|done]. }
  set (node := node_of symbol cs ts is_hidden) in *.
  assert (Hfresh : retain_all cs h !! fresh_ptr h = None)
    by (by rewrite retain_all_lookup, fresh_ptr_fresh).
  assert (Hold : ∀ p t, retain_all cs h !! p = Some t →
            ∃ t0, h !! p = Some t0 ∧ same_fields t t0).
  { intros p t. rewrite retain_all_lookup.
    destruct (h !! p) as [t0|]; [|done]. simpl. intros [= <-].
    exists t0. split; [done|]. apply same_fields_bump. }
  split.
  - apply map_Forall_insert; [done|]. split.
    + unfold node_ok, node. simpl. split; [|split].
      * rewrite extent_of_span by done.
        pose proof (span_nonneg 0 ts Hnodes). unfold in_size_t. lia.
      * by apply extent_of_padding_first.
      * rewrite extent_of_count by apply in_size_t_0. rewrite Z.add_0_l.
        rewrite wrap_small.
        2:{ pose proof (visible_weight_nonneg ts Hnodes).
            unfold in_size_t. lia. }
        rewrite flatten_from_length by (by eapply Forall2_length).
        by rewrite visible_weight_length.
    + intros p t Hp. destruct (Hold p t Hp) as (t0 & Ht0 & Hsame).
      eapply node_ok_same_fields; [done|]. exact (Hok p t0 Ht0).
  - apply map_Forall_insert; [done|]. split; [done|].
    intros p t Hp. destruct (Hold p t Hp) as (t0 & Ht0 & Hsame).
    unfold node_placed. apply same_fields_proj in Hsame
      as (_ & -> & _ & _ & _ & _ & _ & ->).
    apply (placed_heap h); [|by apply (Hpl p t0)].
    intros q g Hg. rewrite lookup_insert_ne.
    2:{ intros Heq. rewrite <- Heq, fresh_ptr_fresh in Hg. done. }
    rewrite retain_all_lookup, Hg. simpl. by eexists.
Qed.

(** The invariant after a node is built over A and B. *)
Lemma make_node_heap_placed_witness :
  ∃ r h',
    ts_tree_make_node 7 [1; 2] false heap_AB = Some (r, h') ∧
    heap_placed h'.
Proof.
  apply (make_node_heap_placed heap_AB 7 false [1; 2] [leaf_A; leaf_B]).
  - exact heap_AB_placed.
  - repeat constructor.
  - reflexivity.
  - reflexivity.
Defined.

(** ** Equality *)

Lemma equals_loop_ext (eq eq' : ptr → ptr → option bool) cs1 : ∀ cs2,
  (∀ c1 c2, eq c1 c2 = eq' c1 c2) →
  equals_loop eq cs1 cs2 = equals_loop eq' cs1 cs2.
Proof.
  induction cs1 as [|c1 cs1 IH]; intros [|c2 cs2] Hext; simpl; try done.
  rewrite Hext. destruct (eq' c1 c2) as [[]|]; auto.
Qed.

(** The verdict depends on the compared fields only. *)
Lemma ts_tree_equals_ext (h h' : heap) :
  (∀ p, compared <$> h' !! p = compared <$> h !! p) →
  ∀ fuel a b, ts_tree_equals fuel h' a b = ts_tree_equals fuel h a b.
Proof.
  intros Hsame. induction fuel as [|fuel IH]; intros a b; [done|].
  cbn [ts_tree_equals].
  pose proof (Hsame a) as Ha. pose proof (Hsame b) as Hb.
  destruct (h' !! a) as [ta'|], (h !! a) as [ta|]; try done.
  destruct (h' !! b) as [tb'|], (h !! b) as [tb|]; try done.
  simpl in *. unfold compared in *. unfold child_count.
  injection Ha as -> -> -> ->. injection Hb as -> -> -> ->.
  by rewrite (equals_loop_ext _ (ts_tree_equals fuel h)).
Qed.

(** The loop over the children, given what the recursive calls do. *)
Lemma equals_loop_decides (R : ptr → ptr → Prop)
    (eq : nat → ptr → ptr → option bool) (P Q : ptr → Prop) d cs1 :
  (∀ c1 c2, P c1 → Q c2 →
     ∃ r, (∀ fuel, (d ≤ fuel)%nat → eq fuel c1 c2 = Some r) ∧
          (r = true ↔ R c1 c2)) →
  ∀ cs2, length cs1 = length cs2 → Forall P cs1 → Forall Q cs2 →
  ∃ r, (∀ fuel, (d ≤ fuel)%nat →
          equals_loop (eq fuel) cs1 cs2 = Some r) ∧
       (r = true ↔ Forall2 R cs1 cs2).
Proof.
  intros Hcall. induction cs1 as [|c1 cs1 IH];
    intros [|c2 cs2] Hlen HP HQ; simpl in Hlen; try done.
  - exists true. split; [done|]. split; [constructor|done].
  - apply Forall_cons in HP as [HP1 HP]. apply Forall_cons in HQ as [HQ1 HQ].
    destruct (Hcall c1 c2 HP1 HQ1) as (r1 & Hr1 & Hiff1).
    destruct (IH cs2) as (r & Hr & Hiff); [lia|done|done|].
    destruct r1.
    + exists r. split.
      * intros fuel Hfuel. simpl. rewrite Hr1 by done. by apply Hr.
      * rewrite Hiff. split.
        -- intros H. constructor; [by apply Hiff1|done].
        -- intros H. by apply Forall2_cons in H as [_ H].
    + exists false. split.
      * intros fuel Hfuel. simpl. by rewrite Hr1.
      * split; [done|]. intros H. apply Forall2_cons in H as [H _].
        by apply Hiff1 in H.
Qed.

Lemma ts_tree_equals_decides d (h : heap) : ∀ a b,
  tree_within d h a →
  tree_within d h b →
  ∃ r, (∀ fuel, (d ≤ fuel)%nat → ts_tree_equals fuel h a b = Some r) ∧
       (r = true ↔ Equals_spec h a b).
Proof.
  induction d as [|d IH]; intros a b Ha Hb; [done|].
  destruct Ha as (ta & Hta & Hca). destruct Hb as (tb & Htb & Hcb).
  assert (Hno : ∀ P : Prop, (Equals_spec h a b → P) → ¬ P →
    ∃ r, (∀ fuel, (S d ≤ fuel)%nat → Some false = Some r) ∧
         (r = true ↔ Equals_spec h a b)).
  { intros P HP HnP. exists false. split; [done|]. split; [done|].
    intros H. by apply HP in H. }
  destruct (decide (symbol ta = symbol tb)) as [Hsym|Hsym]; cycle 1.
  { destruct (Hno (symbol ta = symbol tb)) as (r & Hr & Hiff); [|done|].
    { by inversion 1; simplify_eq. }
    exists r. split; [|done]. intros [|fuel] Hfuel; [lia|].
    cbn [ts_tree_equals]. rewrite Hta, Htb. simpl.
    destruct (Z.eqb_spec (symbol ta) (symbol tb)); [done|]. exact (Hr (S fuel) Hfuel). }
  destruct (decide (lookahead_char ta = lookahead_char tb)) as [Hla|Hla];
    cycle 1.
  { destruct (Hno (lookahead_char ta = lookahead_char tb))
      as (r & Hr & Hiff); [|done|].
    { by inversion 1; simplify_eq. }
    exists r. split; [|done]. intros [|fuel] Hfuel; [lia|].
    cbn [ts_tree_equals]. rewrite Hta, Htb. simpl.
    destruct (Z.eqb_spec (symbol ta) (symbol tb)); [|done]. simpl.
    destruct (Ascii.eqb_spec (lookahead_char ta) (lookahead_char tb));
      [done|]. exact (Hr (S fuel) Hfuel). }
  destruct (decide (child_count ta = child_count tb)) as [Hcc|Hcc]; cycle 1.
  { destruct (Hno (child_count ta = child_count tb)) as (r & Hr & Hiff);
      [|done|].
    { by inversion 1; simplify_eq. }
    exists r. split; [|done]. intros [|fuel] Hfuel; [lia|].
    cbn [ts_tree_equals]. rewrite Hta, Htb. simpl.
    destruct (Z.eqb_spec (symbol ta) (symbol tb)); [|done]. simpl.
    destruct (Ascii.eqb_spec (lookahead_char ta) (lookahead_char tb));
      [|done]. simpl.
    destruct (Z.eqb_spec (child_count ta) (child_count tb)); [done|].
    exact (Hr (S fuel) Hfuel). }
  destruct (decide (visible_child_count ta = visible_child_count tb))
    as [Hvc|Hvc]; cycle 1.
  { destruct (Hno (visible_child_count ta = visible_child_count tb))
      as (r & Hr & Hiff); [|done|].
    { by inversion 1; simplify_eq. }
    exists r. split; [|done]. intros [|fuel] Hfuel; [lia|].
    cbn [ts_tree_equals]. rewrite Hta, Htb. simpl.
    destruct (Z.eqb_spec (symbol ta) (symbol tb)); [|done]. simpl.
    destruct (Ascii.eqb_spec (lookahead_char ta) (lookahead_char tb));
      [|done]. simpl.
    destruct (Z.eqb_spec (child_count ta) (child_count tb)); [|done].
    simpl.
    destruct (Z.eqb_spec (visible_child_count ta) (visible_child_count tb));
      [done|]. exact (Hr (S fuel) Hfuel). }
  destruct (equals_loop_decides (Equals_spec h)
              (λ fuel, ts_tree_equals fuel h)
              (tree_within d h) (tree_within d h) d (children ta)
              IH (children tb)) as (r & Hr & Hiff); [|done|done|].
  { unfold child_count in Hcc. lia. }
  exists r. split.
  - intros [|fuel] Hfuel; [lia|].
    cbn [ts_tree_equals]. rewrite Hta, Htb. simpl.
    destruct (Z.eqb_spec (symbol ta) (symbol tb)); [|done]. simpl.
    destruct (Ascii.eqb_spec (lookahead_char ta) (lookahead_char tb));
      [|done]. simpl.
    destruct (Z.eqb_spec (child_count ta) (child_count tb)); [|done].
    simpl.
    destruct (Z.eqb_spec (visible_child_count ta) (visible_child_count tb));
      [|done]. simpl. apply Hr. lia.
  - rewrite Hiff. split.
    + intros H. by eapply Equals_nodes.
    + inversion 1; simplify_eq. done.
Qed.

(** C7.  On allocated trees [ts_tree_equals] returns a verdict once the fuel
    covers their height, and the verdict is [true] exactly when the two nodes
    have the same symbol, lookahead, child count and visible-child count and
    pairwise equal children.  Sizes, paddings, option flags and reference
    counts play no part: heaps that agree on the compared fields give the
    same verdict, and two leaves that differ in size, padding and hidden
    flag compare equal. *)
Theorem ts_tree_equals_structural d (h : heap) a b :
  tree_within d h a →
  tree_within d h b →
  (∃ r, (∀ fuel, (d ≤ fuel)%nat → ts_tree_equals fuel h a b = Some r) ∧
        (r = true ↔ Equals_spec h a b)) ∧
  (∀ h' : heap,
     (∀ p, compared <$> h' !! p = compared <$> h !! p) →
     ∀ fuel, ts_tree_equals fuel h' a b = ts_tree_equals fuel h a b) ∧
  (∀ fuel, ts_tree_equals (S fuel) heap_AA 1 2 = Some true).
Proof.
  intros Ha Hb. split; [by apply ts_tree_equals_decides|]. split.
  - intros h' Hsame fuel. by apply ts_tree_equals_ext.
  - intros fuel. by vm_compute.
Qed.

(** The theorem on the two leaves that differ in size, padding and hidden
    flag. *)
Lemma ts_tree_equals_structural_witness :
  (∃ r, (∀ fuel, (1 ≤ fuel)%nat →
           ts_tree_equals fuel heap_AA 1 2 = Some r) ∧
        (r = true ↔ Equals_spec heap_AA 1 2)) ∧
  (∀ h' : heap,
     (∀ p, compared <$> h' !! p = compared <$> heap_AA !! p) →
     ∀ fuel, ts_tree_equals fuel h' 1 2 = ts_tree_equals fuel heap_AA 1 2) ∧
  (∀ fuel, ts_tree_equals (S fuel) heap_AA 1 2 = Some true).
Proof.
  apply (ts_tree_equals_structural 1 heap_AA 1 2).
  - exists leaf_A. split; [reflexivity|constructor].
  - exists leaf_A_hidden. split; [reflexivity|constructor].
Defined.

(** ** Character blocks *)

Lemma string_app_nil_r (s : string) : s +:+ "" = s.
Proof.
  induction s as [|a s IH]; [done|].
  change (String a (s +:+ "") = String a s). by rewrite IH.
Qed.


Lemma bytes_app (s1 s2 : string) :
  list_ascii_of_string (s1 +:+ s2)
  = list_ascii_of_string s1 ++ list_ascii_of_string s2.
Proof.
  induction s1 as [|a s1 IH]; [done|].
  change (a :: list_ascii_of_string (s1 +:+ s2)
          = a :: (list_ascii_of_string s1 ++ list_ascii_of_string s2)).
  by rewrite IH.
Qed.

Lemma bytes_nil (s : string) : list_ascii_of_string s = [] → s = "".
Proof. by destruct s. Qed.

Lemma length_poke pos out buf :
  (pos + length out ≤ length buf)%nat →
  length (poke pos out buf) = length buf.
Proof.
  intros Hfit. unfold poke.
  rewrite !length_app, length_take, length_drop. lia.
Qed.

Lemma poke_poke pos l1 l2 buf :
  (pos + length l1 + length l2 < length buf)%nat →
  poke (pos + length l1) (l2 ++ [zero]) (poke pos (l1 ++ [zero]) buf)
  = poke pos ((l1 ++ l2) ++ [zero]) buf.
Proof.
  intros Hfit. unfold poke.
  assert (Hpre : length (take pos buf ++ l1) = (pos + length l1)%nat).
  { rewrite length_app, length_take. lia. }
  replace (take pos buf ++ (l1 ++ [zero]) ++
           drop (pos + length (l1 ++ [zero])) buf)
    with ((take pos buf ++ l1) ++ [zero] ++
          drop (pos + length (l1 ++ [zero])) buf)
    by (by rewrite <- !app_assoc).
  rewrite take_app_length' by done.
  rewrite drop_app_add' by done.
  rewrite !length_app. simpl length.
  replace (length l2 + 1)%nat with (1 + length l2)%nat by lia.
  rewrite (drop_app_add' [zero]) by done.
  rewrite drop_drop, <- !app_assoc.
  by replace (pos + (length l1 + 1) + length l2)%nat
    with (pos + (length l1 + length l2 + 1))%nat by lia.
Qed.

Lemma length_emit pos l buf :
  (pos + length l < length buf)%nat →
  length (emit pos l buf) = length buf.
Proof.
  intros Hfit. destruct l as [|a l]; [done|].
  apply length_poke. rewrite length_app. simpl in *. lia.
Qed.

Lemma emit_app pos l1 l2 buf :
  (pos + length l1 + length l2 < length buf)%nat →
  emit (pos + length l1) l2 (emit pos l1 buf) = emit pos (l1 ++ l2) buf.
Proof.
  intros Hfit. destruct l1 as [|a l1].
  - simpl. by rewrite Nat.add_0_r.
  - destruct l2 as [|b l2].
    + by rewrite app_nil_r.
    + by apply (poke_poke pos (a :: l1) (b :: l2)).
Qed.

(** ** What the printer stores *)

Lemma length_wrote limit pos s buf :
  fits limit pos s buf → length (wrote limit pos s buf) = length buf.
Proof.
  intros [->|[Hlt ->]]; [done|]. unfold wrote.
  destruct (length buf) eqn:Hbuf; [done|]. rewrite <- Hbuf.
  apply length_emit. lia.
Qed.

Lemma wrote_empty limit pos buf : wrote limit pos "" buf = buf.
Proof. by destruct limit. Qed.

Lemma fits_app_l limit pos s1 s2 buf :
  fits limit pos (s1 +:+ s2) buf → fits limit pos s1 buf.
Proof.
  intros [->|[Hlt Hlen]]; [by left|]. right.
  rewrite bytes_app, length_app in Hlt. split; [lia|done].
Qed.

Lemma fits_app_r limit pos s1 s2 buf :
  fits limit pos (s1 +:+ s2) buf →
  fits limit (pos + length (list_ascii_of_string s1)) s2
    (wrote limit pos s1 buf).
Proof.
  intros Hfit. pose proof (fits_app_l _ _ _ _ _ Hfit) as Hfit1.
  destruct Hfit as [->|[Hlt Hlen]]; [by left|]. right.
  rewrite bytes_app, length_app in Hlt. split; [lia|].
  by rewrite length_wrote.
Qed.

Lemma wrote_app limit pos s1 s2 buf :
  fits limit pos (s1 +:+ s2) buf →
  wrote limit (pos + length (list_ascii_of_string s1)) s2
    (wrote limit pos s1 buf)
  = wrote limit pos (s1 +:+ s2) buf.
Proof.
  intros [->|[Hlt Hlen]]; [done|]. destruct limit as [|m]; [done|].
  simpl. rewrite bytes_app in *. rewrite length_app in Hlt.
  apply emit_app. lia.
Qed.

(** A call at the place [*writer] names prints at the cursor. *)
Lemma prints_at_writer w (s : String.string) limit string pos buf :
  prints w s →
  fits limit pos s buf →
  w (writer limit string pos) limit buf
  = Some (length (list_ascii_of_string s), wrote limit pos s buf).
Proof.
  intros Hw Hfit. destruct limit as [|m].
  - unfold writer. simpl. rewrite Hw by (by left). done.
  - unfold writer. simpl. by apply Hw.
Qed.

Lemma snprintf_prints s :
  s ≠ "" → prints (λ string limit, snprintf string limit s) s.
Proof.
  intros Hne limit string buf [->|[Hlt Hlen]]; [done|].
  destruct limit as [|m]; [lia|]. unfold snprintf.
  rewrite take_ge by lia. rewrite length_app. simpl length.
  destruct (Nat.leb_spec (string + (length (list_ascii_of_string s) + 1))
              (length buf)) as [_|Hbad]; [|lia].
  unfold wrote, emit.
  destruct (list_ascii_of_string s) eqn:Hs; [|done].
  by apply bytes_nil in Hs.
Qed.

Lemma write_lookahead_to_string_prints c :
  prints (λ string limit, write_lookahead_to_string string limit c)
    (lookahead_text c).
Proof.
  unfold write_lookahead_to_string, lookahead_text.
  destruct (Ascii.eqb c zero); by apply snprintf_prints.
Qed.

Lemma advances_ret limit pos : advances (ret pos) limit pos "".
Proof.
  intros buf _. unfold ret. simpl. by rewrite Nat.add_0_r, wrote_empty.
Qed.

Lemma advances_call w (s : String.string) limit string pos :
  prints w s →
  advances (do n <- w (writer limit string pos) limit; ret (pos + n)%nat)
    limit pos s.
Proof.
  intros Hw buf Hfit. unfold bind.
  by rewrite (prints_at_writer w s) by done.
Qed.

Lemma finishes_ret limit string pos :
  finishes (ret (pos - string)%nat) limit string pos "".
Proof.
  intros buf _. unfold ret. simpl. by rewrite Nat.add_0_r, wrote_empty.
Qed.

Lemma finishes_bind m k limit string pos (s1 s2 : String.string) :
  advances m limit pos s1 →
  finishes (k (pos + length (list_ascii_of_string s1))%nat) limit string
    (pos + length (list_ascii_of_string s1)) s2 →
  finishes (bind m k) limit string pos (s1 +:+ s2).
Proof.
  intros Hm Hk buf Hfit. unfold bind.
  rewrite Hm by (by eapply fits_app_l).
  rewrite Hk by (by apply fits_app_r).
  rewrite wrote_app by done. rewrite bytes_app, length_app.
  do 2 f_equal. lia.
Qed.


(** The loop over the children, given what the recursive calls print. *)
Lemma write_children_advances (write : ptr → nat → nat → B nat)
    limit string cs ss :
  Forall2 (λ c s, prints (write c) s) cs ss →
  ∀ cursor,
    advances
      (write_children (λ child pos, write child pos limit) limit string cs
         cursor)
      limit cursor (foldr String.append "" ss).
Proof.
  induction 1 as [|c s cs ss Hc _ IH]; intros cursor.
  - apply advances_ret.
  - simpl. intros buf Hfit. unfold bind.
    rewrite (prints_at_writer (write c) s limit string cursor buf Hc)
      by (by eapply fits_app_l).
    rewrite IH by (by apply fits_app_r).
    rewrite wrote_app by done. rewrite bytes_app, length_app.
    do 2 f_equal. lia.
Qed.

Lemma advances_two w1 w2 (s1 s2 : String.string) limit string pos :
  prints w1 s1 →
  prints w2 s2 →
  advances
    (do n <- w1 (writer limit string pos) limit;
     do m <- w2 (writer limit string (pos + n)) limit;
     ret (pos + n + m)%nat)
    limit pos (s1 +:+ s2).
Proof.
  intros H1 H2 buf Hfit. unfold bind.
  rewrite (prints_at_writer w1 s1 limit string pos buf H1)
    by (by eapply fits_app_l).
  rewrite (prints_at_writer w2 s2 limit string _ _ H2)
    by (by apply fits_app_r).
  rewrite wrote_app by done. rewrite bytes_app, length_app.
  unfold ret. do 2 f_equal. lia.
Qed.

Lemma finishes_prints m limit string (s : String.string) buf :
  finishes m limit string string s →
  fits limit string s buf →
  m buf = Some (length (list_ascii_of_string s), wrote limit string s buf).
Proof.
  intros Hm Hfit. rewrite Hm by done. do 2 f_equal. lia.
Qed.

(** The printer stores the rendering the spec describes, and reports its
    length. *)
Lemma tree_write_to_string_prints d (h : heap) names :
  ∀ top p (s : String.string),
    printable d h names top p →
    Rendered h names top p s →
    ∀ fuel, (d ≤ fuel)%nat →
      prints (λ string limit,
                tree_write_to_string fuel h p names string limit top) s.
Proof.
  induction d as [|d IH]; intros top p s Hp Hs fuel Hfuel; [done|].
  destruct fuel as [|fuel]; [lia|].
  assert (Hkids : ∀ t ss,
    h !! p = Some t → p ≠ NULL →
    Forall2 (Rendered h names false) (children t) ss →
    Forall2 (λ c s', prints (λ pos limit,
               tree_write_to_string fuel h c names pos limit false) s')
      (children t) ss).
  { intros t ss Ht Hnull Hss.
    destruct Hp as [->|(t' & Ht' & _ & Hcs)]; [done|]. simplify_eq.
    clear -IH Hcs Hss Hfuel.
    induction Hss as [|c s' cs ss Hc _ IHss]; [constructor|].
    apply Forall_cons in Hcs as [Hc' Hcs].
    constructor; [|by apply IHss]. apply IH; [done|done|lia]. }
  inversion Hs as [top'
                  |top' p' t name ss Hnull Ht Hvis Hsym Hname Hss
                  |top' p' t ss Hnull Ht Hvis Hsym Hss
                  |p' t ss Hnull Ht Hvis Hss]; subst.
  - intros limit string buf Hfit. cbn [tree_write_to_string].
    rewrite Z.eqb_refl. by apply snprintf_prints.
  - intros limit string buf Hfit. cbn [tree_write_to_string].
    destruct (Z.eqb_spec p NULL) as [|_]; [done|]. rewrite Ht. cbv zeta.
    rewrite Hvis. destruct (Z.eqb_spec (symbol t) ts_builtin_sym_error)
      as [|_]; [done|]. rewrite Hname.
    apply finishes_prints; [|done].
    apply (finishes_bind _ _ _ _ _ (if top then "" else " ")).
    { destruct top; [apply advances_ret|].
      by apply (advances_call (λ str lim, snprintf str lim " ")),
        snprintf_prints. }
    apply (finishes_bind _ _ _ _ _ ("(" +:+ name)
             (foldr String.append "" ss +:+ ")")).
    { by apply (advances_call (λ str lim, snprintf str lim ("(" +:+ name))),
        snprintf_prints. }
    apply (finishes_bind _ _ _ _ _ (foldr String.append "" ss) ")").
    { apply (write_children_advances
               (λ c pos lim, tree_write_to_string fuel h c names pos lim
                               false)).
      by apply Hkids. }
    apply (finishes_bind _ _ _ _ _ ")" "").
    { by apply (advances_call (λ str lim, snprintf str lim ")")),
        snprintf_prints. }
    apply finishes_ret.
  - intros limit string buf Hfit. cbn [tree_write_to_string].
    destruct (Z.eqb_spec p NULL) as [|_]; [done|]. rewrite Ht. cbv zeta.
    rewrite Hvis. destruct (Z.eqb_spec (symbol t) ts_builtin_sym_error)
      as [_|]; [|done].
    apply finishes_prints; [|done].
    apply (finishes_bind _ _ _ _ _ (if top then "" else " ")).
    { destruct top; [apply advances_ret|].
      by apply (advances_call (λ str lim, snprintf str lim " ")),
        snprintf_prints. }
    apply (finishes_bind _ _ _ _ _
             ("(ERROR " +:+ lookahead_text (lookahead_char t))
             (foldr String.append "" ss +:+ ")")).
    { apply (advances_two (λ str lim, snprintf str lim "(ERROR ")
               (λ str lim, write_lookahead_to_string str lim
                             (lookahead_char t))).
      - by apply snprintf_prints.
      - apply write_lookahead_to_string_prints. }
    apply (finishes_bind _ _ _ _ _ (foldr String.append "" ss) ")").
    { apply (write_children_advances
               (λ c pos lim, tree_write_to_string fuel h c names pos lim
                               false)).
      by apply Hkids. }
    apply (finishes_bind _ _ _ _ _ ")" "").
    { by apply (advances_call (λ str lim, snprintf str lim ")")),
        snprintf_prints. }
    apply finishes_ret.
  - intros limit string buf Hfit. cbn [tree_write_to_string].
    destruct (Z.eqb_spec p NULL) as [|_]; [done|]. rewrite Ht. cbv zeta.
    rewrite Hvis. cbn [orb andb].
    rewrite <- (string_app_nil_r (foldr String.append "" ss)) in Hfit |- *.
    apply finishes_prints; [|done].
    apply (finishes_bind _ _ _ _ _ "" (foldr String.append "" ss +:+ "")).
    { apply advances_ret. }
    apply (finishes_bind _ _ _ _ _ "" (foldr String.append "" ss +:+ "")).
    { apply advances_ret. }
    apply (finishes_bind _ _ _ _ _ (foldr String.append "" ss) "").
    { apply (write_children_advances
               (λ c pos lim, tree_write_to_string fuel h c names pos lim
                               false)).
      by apply Hkids. }
    apply (finishes_bind _ _ _ _ _ "" "").
    { apply advances_ret. }
    apply finishes_ret.
Qed.

Lemma Rendered_top_text (h : heap) names p (s : String.string) :
  Rendered h names true p s → list_ascii_of_string s ≠ [].
Proof. by inversion 1. Qed.

(** The two passes of [ts_tree_string]: the block that comes back holds the
    rendering as a C string, whatever [malloc] left in it. *)
Lemma ts_tree_string_prints d (h : heap) names p (s : String.string) :
  printable d h names true p →
  Rendered h names true p s →
  ∀ fuel junk, (d ≤ fuel)%nat →
    ts_tree_string fuel h p names junk = Some (c_string s).
Proof.
  intros Hp Hs fuel junk Hfuel.
  pose proof (tree_write_to_string_prints d h names true p s Hp Hs fuel Hfuel)
    as Hcall.
  unfold ts_tree_string. rewrite Hcall by (by left).
  rewrite Hcall.
  2:{ right. rewrite length_fmap, length_seq. split; lia. }
  f_equal. rewrite Nat.add_1_r. unfold wrote, emit, c_string.
  pose proof (Rendered_top_text _ _ _ _ Hs) as Hne.
  destruct (list_ascii_of_string s) as [|a l] eqn:Hl; [done|].
  unfold poke. rewrite take_0. rewrite drop_ge; [by rewrite app_nil_r|].
  rewrite length_fmap, length_seq, length_app. simpl. lia.
Qed.

Lemma rendered_children_exist (h : heap) names (P : ptr → Prop) cs :
  (∀ c, P c → ∃ s, Rendered h names false c s) →
  Forall P cs →
  ∃ ss, Forall2 (Rendered h names false) cs ss.
Proof.
  intros Hone. induction 1 as [|c cs Hc _ (ss & Hss)].
  - by exists [].
  - destruct (Hone c Hc) as (s & Hs). exists (s :: ss). by constructor.
Qed.

(** Every printable tree has a rendering. *)
Lemma rendered_exists d (h : heap) names : ∀ top p,
  printable d h names top p → ∃ s, Rendered h names top p s.
Proof.
  induction d as [|d IH]; intros top p Hp; [done|].
  destruct (decide (p = NULL)) as [->|Hnull].
  { eexists. constructor. }
  destruct Hp as [->|(t & Ht & Hname & Hcs)]; [done|].
  destruct (rendered_children_exist h names _ _ (IH false) Hcs)
    as (ss & Hss).
  destruct (ts_tree_is_visible t || top) eqn:Hvis.
  - destruct (decide (symbol t = ts_builtin_sym_error)) as [Herr|Herr].
    + eexists. by eapply Rendered_error.
    + destruct (Hname eq_refl Herr) as [name Hn].
      eexists. by eapply Rendered_named.
  - apply orb_false_iff in Hvis as [Hvis ->].
    eexists. by eapply Rendered_hidden.
Qed.

(** C8.  On a printable tree [ts_tree_string] returns, once the fuel covers
    the height, the rendering the spec describes as a C string: a
    parenthesised form with the name from the table for a visible node,
    nothing but the rendered children for a hidden node below the top, and a
    parenthesised form for the topmost node whatever its hidden flag.  The
    example tree prints as [(name1 (name2) (name3))], with or without a
    hidden wrapper around the [name2] leaf, and with or without the hidden
    flag on the root. *)
Theorem ts_tree_string_renders d (h : heap) names p :
  printable d h names true p →
  (∃ s, Rendered h names true p s) ∧
  (∀ s, Rendered h names true p s →
     ∀ fuel junk, (d ≤ fuel)%nat →
       ts_tree_string fuel h p names junk = Some (c_string s)) ∧
  (∀ wrapped root_hidden fuel junk,
     rendered_example wrapped root_hidden (3 + fuel) junk
     = Some (c_string "(name1 (name2) (name3))")).
Proof.
  intros Hp. split; [by eapply rendered_exists|]. split.
  - intros s Hs fuel junk Hfuel. by eapply ts_tree_string_prints.
  - intros [] [] fuel junk; by vm_compute.
Qed.

Lemma example_heap_printable :
  printable 2 example_heap example_names true example_root.
Proof.
  assert (Hleaf : ∀ p t,
    example_heap !! p = Some t → children t = [] →
    is_Some (example_names !! Z.to_nat (symbol t)) →
    printable 1 example_heap example_names false p).
  { intros p t Ht Hcs Hn. right. exists t. rewrite Hcs. done. }
  right. eexists. split; [by vm_compute|]. split.
  - intros _ _. by eexists.
  - apply Forall_cons. split; [|apply Forall_cons; split; [|constructor]].
    + eapply Hleaf; [by vm_compute|done|by eexists].
    + eapply Hleaf; [by vm_compute|done|by eexists].
Qed.

(** The theorem on the example tree. *)
Lemma ts_tree_string_renders_witness :
  (∃ s, Rendered example_heap example_names true example_root s) ∧
  (∀ s, Rendered example_heap example_names true example_root s →
     ∀ fuel junk, (2 ≤ fuel)%nat →
       ts_tree_string fuel example_heap example_root example_names junk
       = Some (c_string s)) ∧
  (∀ wrapped root_hidden fuel junk,
     rendered_example wrapped root_hidden (3 + fuel) junk
     = Some (c_string "(name1 (name2) (name3))")).
Proof.
  apply (ts_tree_string_renders 2 example_heap example_names example_root).
  exact example_heap_printable.
Defined.

(** ** Error nodes *)

Lemma ts_tree_make_error_run sz pad c (h : heap) :
  ts_tree_make_error sz pad c h
  = Some (fresh_ptr h,
          <[fresh_ptr h :=
              mkTSTree 1 ts_builtin_sym_error sz [] 0 c pad 0 []]> h).
Proof.
  unfold ts_tree_make_error, bind. rewrite ts_tree_make_leaf_run.
  unfold load, store, ret. rewrite !lookup_insert_eq.
  by rewrite insert_insert_eq.
Qed.

Lemma make_error_heap_placed (h : heap) sz pad c :
  heap_placed h → in_size_t sz → in_size_t pad →
  ∃ r h',
    ts_tree_make_error sz pad c h = Some (r, h') ∧
    heap_placed h'.
Proof.
  intros [Hok Hpl] Hsz Hpad. eexists _, _.
  split; [apply ts_tree_make_error_run|].
  pose proof (fresh_ptr_fresh h) as Hr. split.
  - apply map_Forall_insert; [done|]. split; [|done].
    unfold node_ok. simpl. done.
  - apply map_Forall_insert; [done|]. split.
    + unfold node_placed. simpl. by destruct Hsz.
    + intros p t Hp. apply (placed_heap h); [|by apply (Hpl p t)].
      intros q g Hg. exists g. split; [|done].
      rewrite lookup_insert_ne; [done|]. intros <-. congruence.
Qed.

(** A childless node that carries the error symbol prints, as the topmost
    node, as the word ERROR and its lookahead. *)
Lemma error_leaf_string (h : heap) p t names fuel junk :
  p ≠ NULL →
  h !! p = Some t →
  symbol t = ts_builtin_sym_error →
  children t = [] →
  ts_tree_string (S fuel) h p names junk
  = Some (c_string ("(ERROR " +:+ lookahead_text (lookahead_char t)
                    +:+ ")")).
Proof.
  intros Hp Ht Hsym Hcs.
  apply (ts_tree_string_prints 1); [| |lia].
  - right. exists t. rewrite Hcs. done.
  - apply (Rendered_error h names true p t []); try done.
    + by rewrite orb_true_r.
    + rewrite Hcs. constructor.
Qed.

(** C9.  The node [ts_tree_make_error] returns prints as [(ERROR 'c')] for
    a lookahead character [c], and as [(ERROR <EOF>)] when the lookahead is
    the zero character that stands for the end of the input. *)
Theorem make_error_rendering (h : heap) names fuel junk :
  (∀ sz pad c, ∃ r h',
     ts_tree_make_error sz pad c h = Some (r, h') ∧
     ts_tree_string (S fuel) h' r names junk
     = Some (c_string (if Ascii.eqb c zero then "(ERROR <EOF>)"
                       else "(ERROR '" +:+ String c "')"))) ∧
  (∃ r h',
     ts_tree_make_error 1 0 "x" h = Some (r, h') ∧
     ts_tree_string (S fuel) h' r names junk
     = Some (c_string "(ERROR 'x')")) ∧
  (∃ r h',
     ts_tree_make_error 1 0 zero h = Some (r, h') ∧
     ts_tree_string (S fuel) h' r names junk
     = Some (c_string "(ERROR <EOF>)")).
Proof.
  assert (Hgen : ∀ sz pad c, ∃ r h',
     ts_tree_make_error sz pad c h = Some (r, h') ∧
     ts_tree_string (S fuel) h' r names junk
     = Some (c_string (if Ascii.eqb c zero then "(ERROR <EOF>)"
                       else "(ERROR '" +:+ String c "')"))).
  { intros sz pad c. eexists _, _. split; [apply ts_tree_make_error_run|].
    erewrite error_leaf_string;
      [|apply fresh_ptr_not_null|apply lookup_insert_eq|done|done].
    simpl. unfold lookahead_text. by destruct (Ascii.eqb c zero). }
  split; [exact Hgen|]. split.
  - exact (Hgen 1 0 "x"%char).
  - exact (Hgen 1 0 zero).
Qed.

(** ** Release *)

Lemma wrap_sub_l a b : wrap (wrap a - b) = wrap (a - b).
Proof. unfold wrap. by rewrite Zminus_mod_idemp_l. Qed.

Lemma set_ref_count_same t : set_ref_count t (ref_count t) = t.
Proof. by destruct t. Qed.

Lemma ts_tree_release_step fuel tree :
  ts_tree_release (S fuel) tree
  = (do t <- load tree;
     do _ <- store tree (set_ref_count t (wrap (ref_count t - 1)));
     do t' <- load tree;
     if ref_count t' =? 0
     then
       do _ <- release_loop (ts_tree_release fuel) (children t');
       free tree
     else ret tt).
Proof. done. Qed.

(** A release that leaves owners behind only lowers the count. *)
Lemma ts_tree_release_lowers (h : heap) p t fuel :
  h !! p = Some t →
  wrap (ref_count t - 1) ≠ 0 →
  ts_tree_release (S fuel) p h
  = Some (tt, <[p := set_ref_count t (wrap (ref_count t - 1))]> h).
Proof.
  intros Hp Hrc. cbn [ts_tree_release]. unfold bind, load, store.
  rewrite Hp. cbv beta iota. rewrite Hp. cbv beta iota.
  rewrite lookup_insert_eq. cbv beta iota.
  destruct (Z.eqb_spec
              (ref_count (set_ref_count t (wrap (ref_count t - 1)))) 0)
    as [Heq|_]; [by simpl in Heq|done].
Qed.

(** X1.  Retaining a node and releasing it again leaves the heap as it was,
    for every node that has an owner: the count goes up and down by one and
    nothing is freed. *)
Theorem retain_release_round_trip (h : heap) p t fuel :
  h !! p = Some t →
  0 < ref_count t < SIZE_MODULUS →
  (do _ <- ts_tree_retain p; ts_tree_release (S fuel) p) h = Some (tt, h).
Proof.
  intros Hp Hrc. unfold bind at 1. rewrite (ts_tree_retain_run h p t Hp).
  assert (Hback : wrap (ref_count (bump 1 t) - 1) = ref_count t).
  { simpl. rewrite wrap_sub_l. replace (ref_count t + 1 - 1) with (ref_count t)
      by lia. apply wrap_small. unfold in_size_t. lia. }
  rewrite (ts_tree_release_lowers _ p (bump 1 t)).
  - do 2 f_equal. rewrite Hback. apply map_eq. intros q.
    destruct (decide (p = q)) as [->|Hne].
    + rewrite lookup_insert_eq, Hp. f_equal. by destruct t.
    + by rewrite lookup_insert_ne, lookup_alter_ne.
  - by rewrite lookup_alter_eq, Hp.
  - rewrite Hback. lia.
Qed.

(** The round trip on leaf A. *)
Lemma retain_release_round_trip_witness :
  (do _ <- ts_tree_retain 1; ts_tree_release 1 1) heap_AB
  = Some (tt, heap_AB).
Proof.
  apply (retain_release_round_trip heap_AB 1 leaf_A 0).
  - reflexivity.
  - unfold SIZE_MODULUS. simpl. lia.
Defined.

Lemma drop_refs_0 t : drop_refs 0 t = t.
Proof. destruct t. unfold drop_refs, set_ref_count. simpl. f_equal. lia. Qed.

Lemma drop_refs_drop_refs k t : drop_refs k (drop_refs 1 t) = drop_refs (S k) t.
Proof. unfold drop_refs, set_ref_count. simpl. f_equal. lia. Qed.

Lemma release_all_lookup cs (h : heap) p :
  release_all cs h !! p = drop_refs (slots_of p cs) <$> h !! p.
Proof.
  revert h. induction cs as [|c cs IH]; intros h; simpl.
  - destruct (h !! p) as [t|]; simpl; [by rewrite drop_refs_0|done].
  - unfold release_all in *. simpl. rewrite IH. unfold slots_of.
    rewrite filter_cons. destruct (decide (c = p)) as [->|Hne].
    + rewrite lookup_alter_eq. destruct (h !! p) as [t|]; simpl; [|done].
      by rewrite drop_refs_drop_refs.
    + by rewrite lookup_alter_ne.
Qed.

Lemma slots_of_cons_eq c cs : slots_of c (c :: cs) = S (slots_of c cs).
Proof. unfold slots_of. by rewrite filter_cons_True. Qed.

Lemma slots_of_cons_ne c p cs : c ≠ p → slots_of p (c :: cs) = slots_of p cs.
Proof. intros Hne. unfold slots_of. by rewrite filter_cons_False. Qed.

Lemma slots_of_length p cs : (slots_of p cs ≤ length cs)%nat.
Proof. unfold slots_of. apply length_filter. Qed.

(** The loop over children that all keep an owner: one reference is given
    back per slot. *)
Lemma release_loop_shared fuel cs : ∀ h : heap,
  (∀ c, c ∈ cs →
     ∃ tc, h !! c = Some tc ∧
           Z.of_nat (slots_of c cs) < ref_count tc < SIZE_MODULUS) →
  release_loop (ts_tree_release (S fuel)) cs h
  = Some (tt, release_all cs h).
Proof.
  induction cs as [|c cs IH]; intros h Hcs; [done|].
  destruct (Hcs c) as (tc & Hc & Hrc); [left|].
  rewrite slots_of_cons_eq in Hrc.
  assert (Hw : wrap (ref_count tc - 1) = ref_count tc - 1)
    by (apply wrap_small; unfold in_size_t; lia).
  cbn [release_loop]. unfold bind at 1.
  rewrite (ts_tree_release_lowers h c tc) by (done || lia).
  assert (Hstep : <[c := set_ref_count tc (wrap (ref_count tc - 1))]> h
                  = alter (drop_refs 1) c h).
  { rewrite Hw. apply map_eq. intros q.
    destruct (decide (c = q)) as [->|Hne].
    - by rewrite lookup_insert_eq, lookup_alter_eq, Hc.
    - by rewrite lookup_insert_ne, lookup_alter_ne. }
  rewrite Hstep. rewrite IH; [done|].
  intros c' Hc'. destruct (decide (c = c')) as [<-|Hne].
  - exists (drop_refs 1 tc). rewrite lookup_alter_eq, Hc. split; [done|].
    simpl. lia.
  - destruct (Hcs c') as (tc' & Hc'' & Hrc'); [by right|].
    rewrite slots_of_cons_ne in Hrc' by done.
    exists tc'. by rewrite lookup_alter_ne.
Qed.

(** The release of a node with a single owner over children that keep
    theirs. *)
Lemma ts_tree_release_owner (h : heap) p t fuel :
  h !! p = Some t →
  ref_count t = 1 →
  (∀ c, c ∈ children t →
     ∃ tc, h !! c = Some tc ∧
           Z.of_nat (slots_of c (children t)) < ref_count tc
           < SIZE_MODULUS) →
  ts_tree_release (S (S fuel)) p h
  = Some (tt, delete p (release_all (children t) h)).
Proof.
  intros Hp Hrc Hcs.
  assert (Hnot : p ∉ children t).
  { intros Hin. destruct (Hcs p Hin) as (tc & Hc & Hlt). simplify_eq.
    pose proof (slots_of_elem p (children t) Hin). lia. }
  rewrite ts_tree_release_step. unfold bind at 1, load. rewrite Hp.
  cbv beta iota. unfold bind at 1, store. rewrite Hp. cbv beta iota.
  unfold bind at 1. rewrite lookup_insert_eq. cbv beta iota. rewrite Hrc.
  change (wrap (1 - 1)) with 0.
  change (ref_count (set_ref_count t 0) =? 0) with true. cbv iota.
  change (children (set_ref_count t 0)) with (children t).
  unfold bind at 1.
  set (t0 := set_ref_count t 0). set (h1 := <[p := t0]> h).
  rewrite (release_loop_shared fuel (children t) h1).
  2:{ intros c Hc. destruct (Hcs c Hc) as (tc & Htc & Hlt).
      exists tc. split; [|done]. unfold h1.
      rewrite lookup_insert_ne; [done|]. by intros ->. }
  unfold free. rewrite release_all_lookup, slots_of_not_elem by done.
  unfold h1 at 1. rewrite lookup_insert_eq. simpl.
  do 2 f_equal. apply map_eq. intros q.
  destruct (decide (p = q)) as [->|Hne].
  - by rewrite !lookup_delete_eq.
  - rewrite !lookup_delete_ne by done. rewrite !release_all_lookup.
    unfold h1. by rewrite lookup_insert_ne.
Qed.

(** X2.  Releasing a node whose only owner lets go frees that node, gives
    back one reference for every slot of its child list, and touches nothing
    else, as long as every child keeps an owner. *)
Theorem release_sole_owner (h : heap) p t fuel :
  h !! p = Some t →
  ref_count t = 1 →
  (∀ c, c ∈ children t →
     ∃ tc, h !! c = Some tc ∧
           Z.of_nat (slots_of c (children t)) < ref_count tc
           < SIZE_MODULUS) →
  ∃ h',
    ts_tree_release (S (S fuel)) p h = Some (tt, h') ∧
    h' !! p = None ∧
    (∀ c tc, c ∈ children t → h !! c = Some tc →
       h' !! c
       = Some (set_ref_count tc
                 (ref_count tc - Z.of_nat (slots_of c (children t))))) ∧
    (∀ q, q ≠ p → q ∉ children t → h' !! q = h !! q).
Proof.
  intros Hp Hrc Hcs. eexists. split; [by apply ts_tree_release_owner|].
  split; [apply lookup_delete_eq|]. split.
  - intros c tc Hin Hc.
    assert (c ≠ p).
    { intros ->. destruct (Hcs p Hin) as (tc' & Hc' & Hlt). simplify_eq.
      pose proof (slots_of_elem p (children t) Hin). lia. }
    rewrite lookup_delete_ne by done.
    rewrite release_all_lookup, Hc. done.
  - intros q Hq Hnot. rewrite lookup_delete_ne by done.
    rewrite release_all_lookup, slots_of_not_elem by done.
    destruct (h !! q) as [tq|]; simpl; [by rewrite drop_refs_0|done].
Qed.

(** The release of the root that holds A and B, each also held by its
    maker. *)
Lemma release_sole_owner_witness :
  ∃ h',
    ts_tree_release 2 3 (retain_all [1; 2] heap_owned) = Some (tt, h') ∧
    h' !! 3 = None ∧
    (∀ c tc, c ∈ [1; 2] →
       retain_all [1; 2] heap_owned !! c = Some tc →
       h' !! c
       = Some (set_ref_count tc
                 (ref_count tc - Z.of_nat (slots_of c [1; 2])))) ∧
    (∀ q, q ≠ 3 → q ∉ [1; 2] →
       h' !! q = retain_all [1; 2] heap_owned !! q).
Proof.
  apply (release_sole_owner (retain_all [1; 2] heap_owned) 3
           (mkTSTree 1 7 4 [1; 2] 2 zero 0 0
              [mkTSTreeChild 1 0; mkTSTreeChild 2 2]) 0).
  - reflexivity.
  - reflexivity.
  - intros c Hc. simpl in Hc.
    apply elem_of_cons in Hc as [->|Hc];
      [|apply elem_of_cons in Hc as [->|Hc]; [|by apply elem_of_nil in Hc]].
    + exists (bump 1 leaf_A). split; [reflexivity|]. by vm_compute.
    + exists (bump 1 leaf_B). split; [reflexivity|]. by vm_compute.
Defined.

(** X3.  Building a node and releasing it again leaves the heap as it was:
    the node is freed and every child gets back the references the node took,
    provided each child has an owner and its count has room for one more
    reference per slot. *)
Theorem make_node_release_round_trip (h : heap) symbol is_hidden cs ts fuel :
  heap_ok h →
  Forall2 (λ c t, h !! c = Some t) cs ts →
  Forall (λ t, 0 < ref_count t ∧
               ref_count t + Z.of_nat (length cs) < SIZE_MODULUS) ts →
  (do r <- ts_tree_make_node symbol cs is_hidden;
   ts_tree_release (S (S fuel)) r) h
  = Some (tt, h).
Proof.
  intros Hok Hcs Hrc.
  pose proof (heap_ok_lookups _ _ _ Hok Hcs) as Hnodes.
  unfold bind. rewrite (ts_tree_make_node_run symbol cs ts)
    by (by apply lookups_fields_at || done).
  pose proof (fresh_ptr_fresh h) as Hr. set (r := fresh_ptr h) in *.
  set (node := node_of symbol cs ts is_hidden).
  assert (Hcount : ∀ c, c ∈ cs →
    ∃ t, h !! c = Some t ∧ 0 < ref_count t ∧
         ref_count t + Z.of_nat (length cs) < SIZE_MODULUS).
  { intros c Hin. apply list_elem_of_lookup in Hin as [i Hi].
    destruct (Forall2_lookup_l _ _ _ _ _ Hcs Hi) as (t & Hti & Ht).
    exists t. split; [done|].
    exact (proj1 (Forall_lookup _ _) Hrc i t Hti). }
  rewrite (ts_tree_release_owner _ r node); [| apply lookup_insert_eq | done |].
  - do 2 f_equal. apply map_eq. intros q.
    destruct (decide (r = q)) as [<-|Hne]; [by rewrite lookup_delete_eq|].
    rewrite lookup_delete_ne by done. rewrite release_all_lookup.
    simpl children. rewrite lookup_insert_ne by done.
    rewrite retain_all_lookup.
    destruct (h !! q) as [t|] eqn:Hq; [|done]. simpl. f_equal.
    destruct (decide (q ∈ cs)) as [Hin|Hin].
    + destruct (Hcount q Hin) as (t' & Ht' & Hpos & Hfit). simplify_eq.
      pose proof (slots_of_length q cs).
      unfold drop_refs. rewrite bump_positive by by apply slots_of_elem.
      simpl. rewrite wrap_small by (unfold in_size_t; lia).
      replace (ref_count t + Z.of_nat (slots_of q cs)
               - Z.of_nat (slots_of q cs)) with (ref_count t) by lia.
      by destruct t.
    + rewrite slots_of_not_elem by done. by rewrite bump_0, drop_refs_0.
  - simpl children. intros c Hin.
    destruct (Hcount c Hin) as (t & Ht & Hpos & Hfit).
    pose proof (slots_of_length c cs).
    pose proof (slots_of_elem c cs Hin).
    exists (bump (slots_of c cs) t). split.
    + rewrite lookup_insert_ne by (intros <-; congruence).
      by rewrite retain_all_lookup, Ht.
    + rewrite bump_positive by done. simpl.
      rewrite wrap_small by (unfold in_size_t; lia). lia.
Qed.

(** The round trip on a node that holds A in two of its three slots. *)
Lemma make_node_release_round_trip_witness :
  (do r <- ts_tree_make_node 7 [1; 2; 1] false;
   ts_tree_release 2 r) heap_AB
  = Some (tt, heap_AB).
Proof.
  apply (make_node_release_round_trip heap_AB 7 false [1; 2; 1]
           [leaf_A; leaf_B; leaf_A] 0).
  - exact heap_AB_ok.
  - repeat constructor.
  - repeat constructor; by vm_compute.
Defined.

(** A tree that nobody else holds reads the same in every heap that agrees
    on its nodes. *)
Lemma unshared_ext d : ∀ (h h' : heap) p ps,
  (∀ q, q ∈ ps → h' !! q = h !! q) →
  unshared d h p ps → unshared d h' p ps.
Proof.
  induction d as [|d IH]; intros h h' p ps Hsame; [done|].
  intros (t & pss & Hp & Hrc & Hcs & ->). exists t, pss.
  split; [by rewrite Hsame by left|]. split; [done|]. split; [|done].
  assert (Hsub : ∀ qs q, qs ∈ pss → q ∈ qs → h' !! q = h !! q).
  { intros qs q Hqs Hq. apply Hsame. right.
    apply list_elem_of_join. by exists qs. }
  clear Hsame Hp. induction Hcs as [|c qs cs pss Hc _ IHcs]; [constructor|].
  constructor.
  - apply (IH h); [|done]. intros q Hq. apply (Hsub qs); [left|done].
  - apply IHcs. intros qs' q Hqs' Hq. apply (Hsub qs'); [by right|done].
Qed.

(** The loop of a release over subtrees that nobody else holds. *)
Lemma release_loop_unshared d fuel (h : heap) cs pss :
  (∀ (h0 : heap) p ps, unshared d h0 p ps → NoDup ps →
     ∃ h', ts_tree_release fuel p h0 = Some (tt, h') ∧
           ∀ q, h' !! q = if decide (q ∈ ps) then None else h0 !! q) →
  Forall2 (unshared d h) cs pss →
  NoDup (mjoin pss) →
  ∀ h_cur : heap,
    (∀ q, q ∈ mjoin pss → h_cur !! q = h !! q) →
    ∃ h', release_loop (ts_tree_release fuel) cs h_cur = Some (tt, h') ∧
          ∀ q, h' !! q
               = if decide (q ∈ mjoin pss) then None else h_cur !! q.
Proof.
  intros Hcall Hcs.
  induction Hcs as [|c ps cs pss Hc _ IH]; intros Hnd h_cur Hsame.
  - exists h_cur. split; [done|]. intros q.
    destruct (decide (q ∈ mjoin [])) as [Hin|_]; [|done].
    by apply elem_of_nil in Hin.
  - simpl in Hnd, Hsame. apply NoDup_app in Hnd as (Hnd1 & Hdisj & Hnd2).
    assert (Hc' : unshared d h_cur c ps).
    { apply (unshared_ext d h); [|done]. intros q Hq. apply Hsame.
      apply elem_of_app. by left. }
    destruct (Hcall h_cur c ps Hc' Hnd1) as (h1 & Hrun1 & Hlook1).
    destruct (IH Hnd2 h1) as (h2 & Hrun2 & Hlook2).
    { intros q Hq. rewrite Hlook1. rewrite decide_False.
      - apply Hsame. apply elem_of_app. by right.
      - intros Hq'. by apply (Hdisj q). }
    exists h2. split.
    + cbn [release_loop]. unfold bind. by rewrite Hrun1.
    + intros q. rewrite Hlook2, Hlook1. simpl.
      destruct (decide (q ∈ mjoin pss)) as [Hin|Hin].
      * rewrite decide_True; [done|]. apply elem_of_app. by right.
      * destruct (decide (q ∈ ps)) as [Hin'|Hin'].
        -- rewrite decide_True; [done|]. apply elem_of_app. by left.
        -- rewrite decide_False; [done|]. intros Hq.
           apply elem_of_app in Hq as [?|?]; done.
Qed.

Lemma ts_tree_release_unshared d : ∀ (h : heap) p ps,
  unshared d h p ps →
  NoDup ps →
  ∀ fuel, (d ≤ fuel)%nat →
    ∃ h', ts_tree_release fuel p h = Some (tt, h') ∧
          ∀ q, h' !! q = if decide (q ∈ ps) then None else h !! q.
Proof.
  induction d as [|d IH]; intros h p ps Hp Hnd fuel Hfuel; [done|].
  destruct fuel as [|fuel]; [lia|].
  destruct Hp as (t & pss & Hp & Hrc & Hcs & ->).
  apply NoDup_cons in Hnd as [Hnot Hnd].
  set (h1 := <[p := set_ref_count t 0]> h).
  destruct (release_loop_unshared d fuel h (children t) pss) with (h_cur := h1)
    as (h2 & Hrun & Hlook); [|done|done| |].
  { intros h0 p0 ps0 H0 Hnd0. apply IH; [done|done|lia]. }
  { intros q Hq. unfold h1. rewrite lookup_insert_ne; [done|].
    by intros <-. }
  exists (delete p h2). split.
  - rewrite ts_tree_release_step. unfold bind at 1, load. rewrite Hp.
    cbv beta iota. unfold bind at 1, store. rewrite Hp. cbv beta iota.
    unfold bind at 1. rewrite lookup_insert_eq. cbv beta iota. rewrite Hrc.
    change (wrap (1 - 1)) with 0.
    change (ref_count (set_ref_count t 0) =? 0) with true. cbv iota.
    change (children (set_ref_count t 0)) with (children t).
    unfold bind at 1. fold h1. rewrite Hrun. unfold free.
    rewrite Hlook, decide_False by done. unfold h1.
    by rewrite lookup_insert_eq.
  - intros q. destruct (decide (p = q)) as [<-|Hne].
    + rewrite lookup_delete_eq. rewrite decide_True; [done|left].
    + rewrite lookup_delete_ne by done. rewrite Hlook.
      destruct (decide (q ∈ mjoin pss)) as [Hin|Hin].
      * rewrite decide_True; [done|by right].
      * rewrite decide_False.
        -- unfold h1. by rewrite lookup_insert_ne.
        -- intros Hq. apply elem_of_cons in Hq as [?|?]; done.
Qed.

(** X4.  Releasing the root of a tree that nobody else holds frees exactly
    the nodes of that tree: each of them is gone from the heap afterwards,
    and every other node is as it was. *)
Theorem release_unshared_tree d (h : heap) p ps fuel :
  unshared d h p ps →
  NoDup ps →
  (d ≤ fuel)%nat →
  ∃ h',
    ts_tree_release fuel p h = Some (tt, h') ∧
    (∀ q, q ∈ ps → h' !! q = None) ∧
    (∀ q, q ∉ ps → h' !! q = h !! q).
Proof.
  intros Hp Hnd Hfuel.
  destruct (ts_tree_release_unshared d h p ps Hp Hnd fuel Hfuel)
    as (h' & Hrun & Hlook).
  exists h'. split; [done|]. split.
  - intros q Hq. by rewrite Hlook, decide_True.
  - intros q Hq. by rewrite Hlook, decide_False.
Qed.

Lemma heap_owned_unshared : unshared 2 heap_owned 3 [3; 1; 2].
Proof.
  eexists _, [[1]; [2]]. split; [reflexivity|]. split; [reflexivity|].
  split; [|reflexivity]. simpl. constructor; [|constructor; [|constructor]].
  - exists leaf_A, []. repeat split; constructor.
  - exists leaf_B, []. repeat split; constructor.
Qed.

(** The release of the root that alone holds A and B. *)
Lemma release_unshared_tree_witness :
  ∃ h',
    ts_tree_release 2 3 heap_owned = Some (tt, h') ∧
    (∀ q, q ∈ [3; 1; 2] → h' !! q = None) ∧
    (∀ q, q ∉ [3; 1; 2] → h' !! q = heap_owned !! q).
Proof.
  apply (release_unshared_tree 2 heap_owned 3 [3; 1; 2] 2).
  - exact heap_owned_unshared.
  - compute_done.
  - lia.
Defined.

(** ** Equality as a relation *)

Lemma Equals_spec_refl d (h : heap) : ∀ a,
  tree_within d h a → Equals_spec h a a.
Proof.
  induction d as [|d IH]; intros a Ha; [done|].
  destruct Ha as (t & Ht & Hcs). eapply Equals_nodes; try done.
  apply Forall_Forall2_diag. eapply Forall_impl; [exact Hcs|]. apply IH.
Qed.

Lemma Equals_spec_sym d (h : heap) : ∀ a b,
  tree_within d h a → Equals_spec h a b → Equals_spec h b a.
Proof.
  induction d as [|d IH]; intros a b Ha Hab; [done|].
  destruct Ha as (t & Ht & Hcs).
  inversion Hab as [a' b' ta tb Hta Htb Hsym Hla Hcc Hvc Hkids]; subst.
  simplify_eq. eapply Equals_nodes; try done.
  clear -IH Hcs Hkids. induction Hkids as [|c1 c2 cs1 cs2 Hc _ IHk];
    [constructor|].
  apply Forall_cons in Hcs as [Hc1 Hcs].
  constructor; [by apply IH|by apply IHk].
Qed.

Lemma Equals_spec_trans d (h : heap) : ∀ a b c,
  tree_within d h a →
  Equals_spec h a b → Equals_spec h b c → Equals_spec h a c.
Proof.
  induction d as [|d IH]; intros a b c Ha Hab Hbc; [done|].
  destruct Ha as (t & Ht & Hcs).
  inversion Hab as [a' b' ta tb Hta Htb Hsym Hla Hcc Hvc Hkids]; subst.
  inversion Hbc as [b' c' tb' tc Htb' Htc Hsym' Hla' Hcc' Hvc' Hkids'];
    subst.
  simplify_eq. eapply Equals_nodes; try done; try congruence.
  clear -IH Hcs Hkids Hkids'. revert Hkids'. generalize (children tc).
  induction Hkids as [|c1 c2 cs1 cs2 Hc _ IHk]; intros cs3 Hkids'.
  - apply Forall2_nil_inv_l in Hkids' as ->. constructor.
  - apply Forall2_cons_inv_l in Hkids' as (c3 & cs3' & Hc' & Hkids' & ->).
    apply Forall_cons in Hcs as [Hc1 Hcs].
    constructor; [by eapply IH|by apply IHk].
Qed.

(** X5.  A node compares equal to itself: on an allocated tree
    [ts_tree_equals] answers true for every fuel that covers the height. *)
Theorem ts_tree_equals_reflexive d (h : heap) a fuel :
  tree_within d h a →
  (d ≤ fuel)%nat →
  ts_tree_equals fuel h a a = Some true.
Proof.
  intros Ha Hfuel.
  destruct (ts_tree_equals_decides d h a a Ha Ha) as (r & Hr & Hiff).
  rewrite Hr by done. f_equal. apply Hiff. by eapply Equals_spec_refl.
Qed.

(** Reflexivity on the root of the example tree. *)
Lemma ts_tree_equals_reflexive_witness :
  ts_tree_equals 2 example_heap example_root example_root = Some true.
Proof.
  apply (ts_tree_equals_reflexive 2 example_heap example_root 2); [|lia].
  eexists. split; [by vm_compute|].
  apply Forall_cons. split; [|apply Forall_cons; split; [|constructor]].
  - eexists. split; [by vm_compute|constructor].
  - eexists. split; [by vm_compute|constructor].
Defined.

(** X6.  The verdict does not depend on the order of the two nodes. *)
Theorem ts_tree_equals_symmetric d (h : heap) a b fuel :
  tree_within d h a →
  tree_within d h b →
  (d ≤ fuel)%nat →
  ts_tree_equals fuel h a b = ts_tree_equals fuel h b a.
Proof.
  intros Ha Hb Hfuel.
  destruct (ts_tree_equals_decides d h a b Ha Hb) as (r & Hr & Hiff).
  destruct (ts_tree_equals_decides d h b a Hb Ha) as (r' & Hr' & Hiff').
  rewrite Hr, Hr' by done. f_equal.
  destruct r, r'; try done.
  - symmetry. apply Hiff'. apply (Equals_spec_sym d h a b); [done|].
    by apply Hiff.
  - apply Hiff. apply (Equals_spec_sym d h b a); [done|]. by apply Hiff'.
Qed.

(** Symmetry on the two leaves that differ in size, padding and hidden
    flag. *)
Lemma ts_tree_equals_symmetric_witness :
  ts_tree_equals 1 heap_AA 1 2 = ts_tree_equals 1 heap_AA 2 1.
Proof.
  apply (ts_tree_equals_symmetric 1 heap_AA 1 2 1); [| |lia].
  - exists leaf_A. split; [reflexivity|constructor].
  - exists leaf_A_hidden. split; [reflexivity|constructor].
Defined.

(** X7.  Equal verdicts chain: when [a] equals [b] and [b] equals [c], then
    [a] equals [c]. *)
Theorem ts_tree_equals_transitive d (h : heap) a b c fuel :
  tree_within d h a →
  tree_within d h b →
  tree_within d h c →
  (d ≤ fuel)%nat →
  ts_tree_equals fuel h a b = Some true →
  ts_tree_equals fuel h b c = Some true →
  ts_tree_equals fuel h a c = Some true.
Proof.
  intros Ha Hb Hc Hfuel Hab Hbc.
  destruct (ts_tree_equals_decides d h a b Ha Hb) as (r1 & Hr1 & Hiff1).
  destruct (ts_tree_equals_decides d h b c Hb Hc) as (r2 & Hr2 & Hiff2).
  destruct (ts_tree_equals_decides d h a c Ha Hc) as (r3 & Hr3 & Hiff3).
  rewrite Hr1 in Hab by done. rewrite Hr2 in Hbc by done.
  rewrite Hr3 by done. f_equal. apply Hiff3.
  apply (Equals_spec_trans d h a b c); [done| |].
  - apply Hiff1. congruence.
  - apply Hiff2. congruence.
Qed.

(** The chain A, hidden A, A. *)
Lemma ts_tree_equals_transitive_witness :
  ts_tree_equals 1 heap_AA 1 1 = Some true.
Proof.
  apply (ts_tree_equals_transitive 1 heap_AA 1 2 1 1).
  - exists leaf_A. split; [reflexivity|constructor].
  - exists leaf_A_hidden. split; [reflexivity|constructor].
  - exists leaf_A. split; [reflexivity|constructor].
  - lia.
  - reflexivity.
  - reflexivity.
Defined.

Lemma equals_loop_agree (eq eq' : ptr → ptr → option bool) cs1 : ∀ cs2,
  (∀ c1 c2, c1 ∈ cs1 → c2 ∈ cs2 → eq c1 c2 = eq' c1 c2) →
  equals_loop eq cs1 cs2 = equals_loop eq' cs1 cs2.
Proof.
  induction cs1 as [|c1 cs1 IH]; intros [|c2 cs2] Hext; simpl; try done.
  rewrite Hext by left. destruct (eq' c1 c2) as [[]|]; try done.
  apply IH. intros x y Hx Hy. apply Hext; by right.
Qed.

(** The verdict on allocated trees is the same in every heap that keeps
    their nodes and the fields the comparison reads. *)
Lemma ts_tree_equals_agree (h h' : heap) :
  (∀ p t, h !! p = Some t →
     ∃ t', h' !! p = Some t' ∧ compared t' = compared t) →
  ∀ fuel d a b,
    tree_within d h a → tree_within d h b →
    ts_tree_equals fuel h' a b = ts_tree_equals fuel h a b.
Proof.
  intros Hsame. induction fuel as [|fuel IH]; intros d a b Ha Hb; [done|].
  destruct d as [|d]; [done|].
  destruct Ha as (ta & Hta & Hca). destruct Hb as (tb & Htb & Hcb).
  destruct (Hsame a ta Hta) as (ta' & Hta' & Hea).
  destruct (Hsame b tb Htb) as (tb' & Htb' & Heb).
  cbn [ts_tree_equals]. rewrite Hta, Htb, Hta', Htb'. simpl.
  unfold compared in *. unfold child_count.
  injection Hea as -> -> -> ->. injection Heb as -> -> -> ->.
  rewrite (equals_loop_agree _ (ts_tree_equals fuel h)); [done|].
  intros c1 c2 Hc1 Hc2. apply (IH d).
  - by apply (proj1 (Forall_forall _ _) Hca).
  - by apply (proj1 (Forall_forall _ _) Hcb).
Qed.

(** X8.  Building a node does not change how the nodes that were there
    before compare: the call only raises reference counts and adds a node,
    and the comparison reads neither. *)
Theorem make_node_keeps_equality (h : heap) symbol is_hidden cs ts d a b fuel :
  heap_ok h →
  Forall2 (λ c t, h !! c = Some t) cs ts →
  tree_within d h a →
  tree_within d h b →
  ∃ r h',
    ts_tree_make_node symbol cs is_hidden h = Some (r, h') ∧
    ts_tree_equals fuel h' a b = ts_tree_equals fuel h a b.
Proof.
  intros Hok Hcs Ha Hb.
  pose proof (heap_ok_lookups _ _ _ Hok Hcs) as Hnodes.
  eexists _, _. split.
  { apply (ts_tree_make_node_run symbol cs ts);
      [by apply lookups_fields_at|done]. }
  apply (ts_tree_equals_agree h _) with (d := d); [|done|done].
  intros p t Hp. rewrite lookup_insert_ne.
  2:{ intros Heq. rewrite <- Heq, fresh_ptr_fresh in Hp. done. }
  rewrite retain_all_lookup, Hp. simpl. by eexists.
Qed.

(** A node built over A and the hidden A, and the comparison of the two. *)
Lemma make_node_keeps_equality_witness :
  ∃ r h',
    ts_tree_make_node 7 [1; 2] false heap_AA = Some (r, h') ∧
    ts_tree_equals 1 h' 1 2 = ts_tree_equals 1 heap_AA 1 2.
Proof.
  apply (make_node_keeps_equality heap_AA 7 false [1; 2]
           [leaf_A; leaf_A_hidden] 1 1 2 1).
  - unfold heap_ok. compute_done.
  - repeat constructor.
  - exists leaf_A. split; [reflexivity|constructor].
  - exists leaf_A_hidden. split; [reflexivity|constructor].
Defined.

(** ** More on the constructors *)

(** X10.  The two leaf constructors return a fresh address that is not null,
    leave every node that was there untouched, and keep the invariant of the
    heap; the leaf is visible unless asked to be hidden, the error leaf is
    always visible and carries the error symbol and its lookahead. *)
Theorem leaf_constructors_keep_heap (h : heap) sym sz pad is_hidden c :
  heap_placed h →
  in_size_t sz →
  in_size_t pad →
  (∃ r h' node,
     ts_tree_make_leaf sym sz pad is_hidden h = Some (r, h') ∧
     r ≠ NULL ∧ h !! r = None ∧ h' !! r = Some node ∧
     (∀ p, p ≠ r → h' !! p = h !! p) ∧
     heap_placed h' ∧
     ts_tree_is_visible node = negb is_hidden ∧
     ts_tree_is_wrapper node = false ∧
     ref_count node = 1) ∧
  (∃ r h' node,
     ts_tree_make_error sz pad c h = Some (r, h') ∧
     r ≠ NULL ∧ h !! r = None ∧ h' !! r = Some node ∧
     (∀ p, p ≠ r → h' !! p = h !! p) ∧
     heap_placed h' ∧
     ts_tree_is_visible node = true ∧
     symbol node = ts_builtin_sym_error ∧
     lookahead_char node = c ∧
     ref_count node = 1).
Proof.
  intros Hpl Hsz Hpad. split.
  - destruct (make_leaf_heap_placed h sym sz pad is_hidden Hpl Hsz Hpad)
      as (r & h' & Hrun & Hpl').
    rewrite ts_tree_make_leaf_run in Hrun. injection Hrun as <- <-.
    eexists _, _, _. split; [apply ts_tree_make_leaf_run|].
    split; [apply fresh_ptr_not_null|]. split; [apply fresh_ptr_fresh|].
    split; [apply lookup_insert_eq|]. split.
    { intros p Hp. by rewrite lookup_insert_ne. }
    split; [done|]. by destruct is_hidden.
  - destruct (make_error_heap_placed h sz pad c Hpl Hsz Hpad)
      as (r & h' & Hrun & Hpl').
    rewrite ts_tree_make_error_run in Hrun. injection Hrun as <- <-.
    eexists _, _, _. split; [apply ts_tree_make_error_run|].
    split; [apply fresh_ptr_not_null|]. split; [apply fresh_ptr_fresh|].
    split; [apply lookup_insert_eq|]. split.
    { intros p Hp. by rewrite lookup_insert_ne. }
    done.
Qed.

(** The two constructors on the heap that holds A and B. *)
Lemma leaf_constructors_keep_heap_witness :
  (∃ r h' node,
     ts_tree_make_leaf 5 3 1 true heap_AB = Some (r, h') ∧
     r ≠ NULL ∧ heap_AB !! r = None ∧ h' !! r = Some node ∧
     (∀ p, p ≠ r → h' !! p = heap_AB !! p) ∧
     heap_placed h' ∧
     ts_tree_is_visible node = negb true ∧
     ts_tree_is_wrapper node = false ∧
     ref_count node = 1) ∧
  (∃ r h' node,
     ts_tree_make_error 3 1 "x" heap_AB = Some (r, h') ∧
     r ≠ NULL ∧ heap_AB !! r = None ∧ h' !! r = Some node ∧
     (∀ p, p ≠ r → h' !! p = heap_AB !! p) ∧
     heap_placed h' ∧
     ts_tree_is_visible node = true ∧
     symbol node = ts_builtin_sym_error ∧
     lookahead_char node = "x"%char ∧
     ref_count node = 1).
Proof.
  apply (leaf_constructors_keep_heap heap_AB 5 3 1 true "x"%char).
  - exact heap_AB_placed.
  - by vm_compute.
  - by vm_compute.
Defined.

Lemma flatten_from_elem (h : heap) cs ts e : ∀ i off,
  Forall2 (λ c t, h !! c = Some t) cs ts →
  e ∈ flatten_from i cs ts off →
  ∃ c t off', h !! c = Some t ∧ e ∈ entries_of c t off'.
Proof.
  intros i off Hcs. revert i off.
  induction Hcs as [|c t cs ts Hc _ IH]; intros i off; simpl.
  - by intros Hin%elem_of_nil.
  - intros [Hin|Hin]%elem_of_app; [by eexists c, t, _|by eapply IH].
Qed.

(** X11.  [ts_tree_make_node] keeps the flattened views sound: if every
    entry of every array of visible children names an allocated visible
    node, the same holds after the call, for the array of the new node
    too. *)
Theorem make_node_entries_visible (h : heap) symbol is_hidden cs ts :
  heap_ok h →
  entries_visible h →
  Forall2 (λ c t, h !! c = Some t) cs ts →
  ∃ r h',
    ts_tree_make_node symbol cs is_hidden h = Some (r, h') ∧
    entries_visible h'.
Proof.
  intros Hok Hvis Hcs.
  pose proof (heap_ok_lookups _ _ _ Hok Hcs) as Hnodes.
  eexists _, _. split.
  { apply (ts_tree_make_node_run symbol cs ts);
      [by apply lookups_fields_at|done]. }
  pose proof (fresh_ptr_fresh h) as Hr. set (r := fresh_ptr h) in *.
  set (node := node_of symbol cs ts is_hidden).
  assert (Hkeep : ∀ q g, h !! q = Some g → ts_tree_is_visible g = true →
    ∃ g', <[r := node]> (retain_all cs h) !! q = Some g' ∧
          ts_tree_is_visible g' = true).
  { intros q g Hq Hg. exists (bump (slots_of q cs) g). split; [|done].
    rewrite lookup_insert_ne by (intros <-; congruence).
    by rewrite retain_all_lookup, Hq. }
  intros p t e Hp He. destruct (decide (r = p)) as [<-|Hne].
  - rewrite lookup_insert_eq in Hp. injection Hp as <-. simpl in He.
    destruct (flatten_from_elem h cs ts e 0 0 Hcs He)
      as (c & tc & off' & Hc & Hin).
    unfold entries_of in Hin.
    destruct (ts_tree_is_visible tc) eqn:Hvc.
    + apply list_elem_of_singleton in Hin as ->. simpl. by apply (Hkeep c tc).
    + apply list_elem_of_fmap in Hin as (g & -> & Hg). simpl.
      destruct (Hvis c tc g Hc Hg) as (gg & Hgg & Hv). by apply (Hkeep _ gg).
  - rewrite lookup_insert_ne in Hp by done.
    rewrite retain_all_lookup in Hp.
    destruct (h !! p) as [t0|] eqn:Hp0; [|done]. injection Hp as <-.
    destruct (Hvis p t0 e Hp0 He) as (g & Hg & Hv). by apply (Hkeep _ g).
Qed.

Lemma heap_AB_entries_visible : entries_visible heap_AB.
Proof.
  intros p t e Hp He. unfold heap_AB in Hp.
  apply lookup_insert_Some in Hp as [[_ <-]|[_ Hp]];
    [by apply elem_of_nil in He|].
  apply lookup_insert_Some in Hp as [[_ <-]|[_ Hp]];
    [by apply elem_of_nil in He|done].
Qed.

(** A hidden node built over A and B. *)
Lemma make_node_entries_visible_witness :
  ∃ r h',
    ts_tree_make_node 7 [1; 2] true heap_AB = Some (r, h') ∧
    entries_visible h'.
Proof.
  apply (make_node_entries_visible heap_AB 7 true [1; 2] [leaf_A; leaf_B]).
  - exact heap_AB_ok.
  - exact heap_AB_entries_visible.
  - repeat constructor.
Defined.

(** X12.  The flags of a built node, in every case: it is a wrapper exactly
    when it has a single child that is visible or a wrapper, and it is
    visible exactly when it was not asked to be hidden and is no wrapper. *)
Theorem make_node_flags (h : heap) symbol is_hidden cs ts :
  heap_ok h →
  Forall2 (λ c t, h !! c = Some t) cs ts →
  ∃ r h' node,
    ts_tree_make_node symbol cs is_hidden h = Some (r, h') ∧
    h' !! r = Some node ∧
    ts_tree_is_wrapper node
    = match ts with
      | [t] => ts_tree_is_visible t || ts_tree_is_wrapper t
      | _ => false
      end ∧
    ts_tree_is_visible node
    = negb is_hidden && negb (ts_tree_is_wrapper node).
Proof.
  intros Hok Hcs.
  pose proof (heap_ok_lookups _ _ _ Hok Hcs) as Hnodes.
  eexists _, _, _. split.
  { apply (ts_tree_make_node_run symbol cs ts);
      [by apply lookups_fields_at|done]. }
  split; [apply lookup_insert_eq|].
  unfold ts_tree_is_wrapper at 1 3, ts_tree_is_visible at 2. simpl options.
  unfold options_of. fold (single_wrapped ts).
  by destruct is_hidden, (single_wrapped ts).
Qed.

(** The flags of a node built over A and B: no wrapper, visible. *)
Lemma make_node_flags_witness :
  ∃ r h' node,
    ts_tree_make_node 7 [1; 2] false heap_AB = Some (r, h') ∧
    h' !! r = Some node ∧
    ts_tree_is_wrapper node
    = match [leaf_A; leaf_B] with
      | [t] => ts_tree_is_visible t || ts_tree_is_wrapper t
      | _ => false
      end ∧
    ts_tree_is_visible node
    = negb false && negb (ts_tree_is_wrapper node).
Proof.
  apply (make_node_flags heap_AB 7 false [1; 2] [leaf_A; leaf_B]).
  - exact heap_AB_ok.
  - repeat constructor.
Defined.

Lemma placed_offsets (h : heap) vs : ∀ lo hi,
  heap_ok h → 0 ≤ lo → hi < SIZE_MODULUS →
  placed h lo vs hi →
  Forall (λ e, in_size_t (offset e)) vs.
Proof.
  intros lo hi Hok Hlo Hhi. revert lo Hlo.
  induction vs as [|e vs IH]; intros lo Hlo; simpl; [done|].
  intros [Hle Hrest]. destruct (h !! tree e) as [g|] eqn:Hg; [|done].
  pose proof (heap_ok_sizes _ _ _ Hok Hg) as Hsz.
  pose proof (placed_bounds h vs _ _
                (λ p g', heap_ok_sizes h p g' Hok) Hrest) as Hb.
  constructor.
  - unfold in_size_t. lia.
  - apply (IH (offset e + size g)); [lia|done].
Qed.

(** X13.  A node built over a single hidden child is transparent: it has the
    child's size, padding, number of visible children and, entry for entry,
    the child's array of visible children; it is a wrapper exactly when the
    child is one. *)
Theorem make_node_over_hidden_child (h : heap) symbol is_hidden c t :
  heap_placed h →
  h !! c = Some t →
  ts_tree_is_visible t = false →
  visible_child_count t < SIZE_MODULUS →
  ∃ r h' node,
    ts_tree_make_node symbol [c] is_hidden h = Some (r, h') ∧
    h' !! r = Some node ∧
    size node = size t ∧
    padding node = padding t ∧
    visible_child_count node = visible_child_count t ∧
    visible_children node = visible_children t ∧
    ts_tree_is_wrapper node = ts_tree_is_wrapper t.
Proof.
  intros [Hok Hpl] Hc Hvis Hcount.
  destruct (Hok c t Hc) as (Hsz & Hpad & Hlen).
  eexists _, _, _. split.
  { apply (ts_tree_make_node_run symbol [c] [t]).
    - repeat constructor. by apply fields_at_lookup.
    - constructor; [exact (Hok c t Hc)|constructor]. }
  split; [apply lookup_insert_eq|].
  split; [done|]. split; [done|]. split.
  { cbn [node_of visible_child_count extent_of]. rewrite Hvis.
    cbn [snd Nat.eqb]. rewrite Z.add_0_l. apply wrap_small.
    unfold in_size_t. lia. }
  split.
  { cbn [node_of visible_children flatten_from Nat.ltb Nat.leb].
    unfold entries_of. rewrite Hvis, app_nil_r.
    pose proof (placed_offsets h _ 0 (size t) Hok (Z.le_refl 0)
                  (proj2 Hsz) (Hpl c t Hc)) as Hoffs.
    clear Hlen. induction Hoffs as [|e vs He _ IH]; [done|].
    cbn [map]. rewrite IH. f_equal. unfold shift_child.
    rewrite Z.add_0_l, wrap_small by done. by destruct e. }
  unfold ts_tree_is_wrapper at 1. cbn [node_of options].
  unfold options_of, single_wrapped. rewrite Hvis. cbn [orb].
  destruct (ts_tree_is_wrapper t); by destruct is_hidden.
Qed.

Lemma heap_hidden_placed : heap_placed heap_hidden.
Proof. unfold heap_placed, heap_ok. split; compute_done. Qed.

(** A node built over the hidden node that holds A and B. *)
Lemma make_node_over_hidden_child_witness :
  ∃ r h' node,
    ts_tree_make_node 9 [3] false heap_hidden = Some (r, h') ∧
    h' !! r = Some node ∧
    size node = size hidden_pair ∧
    padding node = padding hidden_pair ∧
    visible_child_count node = visible_child_count hidden_pair ∧
    visible_children node = visible_children hidden_pair ∧
    ts_tree_is_wrapper node = ts_tree_is_wrapper hidden_pair.
Proof.
  apply (make_node_over_hidden_child heap_hidden 9 false 3 hidden_pair).
  - exact heap_hidden_placed.
  - reflexivity.
  - reflexivity.
  - reflexivity.
Defined.

Lemma wrap_add_r a b : wrap (a + wrap b) = wrap (a + b).
Proof. by rewrite Z.add_comm, wrap_add_l, Z.add_comm. Qed.

Lemma wrap_sum_total_size ts :
  wrap (Z_sum (map ts_tree_total_size ts))
  = wrap (Z_sum (map later_extent ts)).
Proof.
  induction ts as [|t ts IH]; [done|].
  cbn [map Z_sum foldr]. fold (Z_sum (map ts_tree_total_size ts)).
  fold (Z_sum (map later_extent ts)).
  unfold ts_tree_total_size at 1, later_extent at 1.
  by rewrite wrap_add_l, <- wrap_add_r, IH, wrap_add_r.
Qed.

(** X14.  The total size of a built node, padding and size together, is the
    sum of the total sizes of its children in [size_t] arithmetic: building
    a node neither loses nor invents text. *)
Theorem make_node_total_size (h : heap) symbol is_hidden cs ts :
  heap_ok h →
  Forall2 (λ c t, h !! c = Some t) cs ts →
  ∃ r h' node,
    ts_tree_make_node symbol cs is_hidden h = Some (r, h') ∧
    h' !! r = Some node ∧
    ts_tree_total_size node = wrap (Z_sum (map ts_tree_total_size ts)).
Proof.
  intros Hok Hcs.
  pose proof (heap_ok_lookups _ _ _ Hok Hcs) as Hnodes.
  eexists _, _, _. split.
  { apply (ts_tree_make_node_run symbol cs ts);
      [by apply lookups_fields_at|done]. }
  split; [apply lookup_insert_eq|].
  unfold ts_tree_total_size at 1. cbn [node_of size padding].
  destruct Hnodes as [|t ts' (Hsz & _ & _) _]; [done|].
  cbn [extent_of Nat.eqb]. rewrite extent_of_padding, extent_of_size by done.
  cbn [map Z_sum foldr]. fold (Z_sum (map ts_tree_total_size ts')).
  unfold ts_tree_total_size at 1.
  rewrite wrap_add_l, <- (wrap_add_r (padding t + size t)),
    wrap_sum_total_size, !wrap_add_r.
  f_equal. lia.
Qed.

(** The total size of a node built over A and B. *)
Lemma make_node_total_size_witness :
  ∃ r h' node,
    ts_tree_make_node 7 [1; 2] false heap_AB = Some (r, h') ∧
    h' !! r = Some node ∧
    ts_tree_total_size node
    = wrap (Z_sum (map ts_tree_total_size [leaf_A; leaf_B])).
Proof.
  apply (make_node_total_size heap_AB 7 false [1; 2] [leaf_A; leaf_B]).
  - exact heap_AB_ok.
  - repeat constructor.
Defined.

(** ** More on the printer *)

(** X15.  The measuring pass: with limit 0 the printer stores nothing,
    wherever [string] points and whatever the block holds, and reports the
    length of the rendering. *)
Theorem measuring_pass_stores_nothing d (h : heap) names top p
    (s : String.string) :
  printable d h names top p →
  Rendered h names top p s →
  ∀ fuel string buf, (d ≤ fuel)%nat →
    tree_write_to_string fuel h p names string 0 top buf
    = Some (length (list_ascii_of_string s), buf).
Proof.
  intros Hp Hs fuel string buf Hfuel.
  by rewrite (tree_write_to_string_prints d h names top p s Hp Hs fuel Hfuel
                0%nat string buf) by (by left).
Qed.

(** The measuring pass over the example tree, into a block of junk. *)
Lemma measuring_pass_stores_nothing_witness :
  tree_write_to_string 2 example_heap example_root example_names 1 0 true
    ["x"; "y"]%char
  = Some (length (list_ascii_of_string "(name1 (name2) (name3))"),
          ["x"; "y"]%char).
Proof.
  apply (measuring_pass_stores_nothing 2 example_heap example_names true
           example_root "(name1 (name2) (name3))").
  - exact example_heap_printable.
  - apply (Rendered_named example_heap example_names true example_root
             (mkTSTree 1 1 3 [1; 2] 2 zero 0 0
                [mkTSTreeChild 1 0; mkTSTreeChild 2 2])
             "name1" [" (name2)"; " (name3)"]); try done.
    constructor.
    { by apply (Rendered_named example_heap example_names false 1
                  (mkTSTree 2 2 1 [] 0 zero 0 0 []) "name2" []). }
    constructor; [|constructor].
    by apply (Rendered_named example_heap example_names false 2
                (mkTSTree 2 3 1 [] 0 zero 1 0 []) "name3" []).
  - lia.
Defined.

Lemma poke_lookup_outside pos out buf i :
  (pos + length out ≤ length buf)%nat →
  (i < pos ∨ pos + length out ≤ i)%nat →
  poke pos out buf !! i = buf !! i.
Proof.
  intros Hfit Hi. unfold poke. destruct Hi as [Hi|Hi].
  - rewrite lookup_app_l by (rewrite length_take; lia).
    by rewrite lookup_take_lt.
  - rewrite lookup_app_r by (rewrite length_take; lia).
    rewrite length_take, Nat.min_l by lia.
    rewrite lookup_app_r by lia. rewrite lookup_drop. f_equal. lia.
Qed.

Lemma poke_lookup_inside pos out buf i :
  (pos ≤ length buf)%nat →
  (i < length out)%nat →
  poke pos out buf !! (pos + i)%nat = out !! i.
Proof.
  intros Hfit Hi. unfold poke.
  rewrite lookup_app_r by (rewrite length_take; lia).
  rewrite length_take, Nat.min_l by lia.
  rewrite lookup_app_l by lia. f_equal. lia.
Qed.

(** X16.  The writing pass: given a block with room for the rendering and
    its terminator behind [string], the printer reports the length of the
    rendering, keeps the length of the block, stores the rendering as a C
    string from [string] on, and touches no other cell; a rendering that is
    empty stores nothing at all, not even a terminator. *)
Theorem writing_pass_frame d (h : heap) names top p (s : String.string) :
  printable d h names top p →
  Rendered h names top p s →
  ∀ fuel string buf,
    (d ≤ fuel)%nat →
    (string + length (list_ascii_of_string s) < length buf)%nat →
    ∃ block,
      tree_write_to_string fuel h p names string (length buf) top buf
      = Some (length (list_ascii_of_string s), block) ∧
      length block = length buf ∧
      (∀ i, (i < string ∨ string + length (list_ascii_of_string s) < i)%nat →
            block !! i = buf !! i) ∧
      (s ≠ "" →
       ∀ i, (i ≤ length (list_ascii_of_string s))%nat →
            block !! (string + i)%nat = c_string s !! i) ∧
      (s = "" → block = buf).
Proof.
  intros Hp Hs fuel string buf Hfuel Hroom.
  assert (Hfit : fits (length buf) string s buf) by (by right).
  exists (wrote (length buf) string s buf). split.
  { by apply (tree_write_to_string_prints d h names top p s Hp Hs fuel
                Hfuel). }
  split; [by apply length_wrote|].
  unfold wrote. destruct (length buf) as [|m] eqn:Hlen; [lia|].
  rewrite <- Hlen in *. clear m Hlen. unfold emit, c_string.
  destruct (list_ascii_of_string s) as [|a l] eqn:Hl.
  - split; [done|]. split; [|done]. intros Hne. by apply bytes_nil in Hl.
  - split.
    { intros i Hi. apply poke_lookup_outside.
      - rewrite length_app. simpl in *. lia.
      - rewrite length_app. simpl in *. lia. }
    split.
    { intros _ i Hi. apply poke_lookup_inside; [lia|].
      rewrite length_app. simpl in *. lia. }
    by intros ->.
Qed.

(** The name of A printed in the middle of a block of six cells. *)
Lemma writing_pass_frame_witness :
  ∃ block,
    tree_write_to_string 1 heap_AB 1 ["ab"; "A"] 2 6 true
      ["u"; "v"; "w"; "x"; "y"; "z"]%char
    = Some (3%nat, block) ∧
    length block = 6%nat ∧
    (∀ i, (i < 2 ∨ 2 + 3 < i)%nat →
          block !! i = ["u"; "v"; "w"; "x"; "y"; "z"]%char !! i) ∧
    ("(A)" ≠ "" →
     ∀ i, (i ≤ 3)%nat → block !! (2 + i)%nat = c_string "(A)" !! i) ∧
    ("(A)" = "" → block = ["u"; "v"; "w"; "x"; "y"; "z"]%char).
Proof.
  refine (writing_pass_frame 1 heap_AB ["ab"; "A"] true 1 "(A)" _ _
            1%nat 2%nat ["u"; "v"; "w"; "x"; "y"; "z"]%char _ _).
  - right. exists leaf_A. by repeat split.
  - by apply (Rendered_named heap_AB ["ab"; "A"] true 1 leaf_A "A" []).
  - lia.
  - simpl. lia.
Defined.

Lemma same_print_visible t t' :
  same_print t t' → ts_tree_is_visible t = ts_tree_is_visible t'.
Proof. intros (_ & Ho & _). unfold ts_tree_is_visible. by rewrite Ho. Qed.

Lemma prints_alike_lookup (h h' : heap) p t :
  prints_alike h h' → h !! p = Some t →
  ∃ t', h' !! p = Some t' ∧ same_print t t'.
Proof.
  intros Hall Hp. specialize (Hall p t Hp). unfold prints_at in Hall.
  destruct (h' !! p) as [t'|]; [by exists t'|done].
Qed.

Lemma bind_mono {S A A'} (m m' : ST S A) (k k' : A → ST S A') s r :
  (∀ r', m s = Some r' → m' s = Some r') →
  (∀ a s' r', k a s' = Some r' → k' a s' = Some r') →
  bind m k s = Some r → bind m' k' s = Some r.
Proof.
  intros Hm Hk. unfold bind. destruct (m s) as [[a s']|] eqn:Hms; [|done].
  rewrite (Hm _ eq_refl). apply Hk.
Qed.

Lemma write_children_mono (w w' : ptr → nat → B nat) limit string cs :
  (∀ c pos buf r, w c pos buf = Some r → w' c pos buf = Some r) →
  ∀ cursor buf r,
    write_children w limit string cs cursor buf = Some r →
    write_children w' limit string cs cursor buf = Some r.
Proof.
  intros Hw. induction cs as [|c cs IH]; intros cursor buf r; [done|].
  cbn [write_children]. unfold bind.
  destruct (w c (writer limit string cursor) buf) as [[n buf']|] eqn:Hc;
    [|done].
  rewrite (Hw _ _ _ _ Hc). apply IH.
Qed.

(** What the printer reads of a node: its symbol, its options, its children
    and its lookahead. *)
Lemma tree_write_to_string_alike (h h' : heap) names :
  prints_alike h h' →
  ∀ fuel p string limit top buf r,
    tree_write_to_string fuel h p names string limit top buf = Some r →
    tree_write_to_string fuel h' p names string limit top buf = Some r.
Proof.
  intros Hall. induction fuel as [|fuel IH];
    intros p string limit top buf r; [done|].
  cbn [tree_write_to_string]. destruct (p =? NULL); [done|].
  destruct (h !! p) as [t|] eqn:Hp; [|done].
  destruct (prints_alike_lookup _ _ _ _ Hall Hp) as (t' & -> & Hsame).
  cbv zeta. rewrite <- (same_print_visible _ _ Hsame).
  destruct Hsame as (<- & _ & <- & <-).
  apply bind_mono; [done|]. intros c1 b1 r1.
  apply bind_mono; [done|]. intros c2 b2 r2.
  apply bind_mono; [|done]. intros r3.
  apply write_children_mono. intros c pos buf' r'. apply IH.
Qed.

(** X17.  The printer reads the symbol, the options, the children and the
    lookahead of a node and nothing else: on a heap whose nodes agree with
    those of [h] on these fields, [ts_tree_string] returns the block it
    returns on [h], whatever the reference counts, sizes, paddings and
    arrays of visible children are. *)
Theorem ts_tree_string_reads (h h' : heap) names fuel p junk block :
  prints_alike h h' →
  ts_tree_string fuel h p names junk = Some block →
  ts_tree_string fuel h' p names junk = Some block.
Proof.
  intros Hall. unfold ts_tree_string.
  destruct (tree_write_to_string fuel h p names 0 0 true [zero])
    as [[n b]|] eqn:Hmeasure; [|done].
  rewrite (tree_write_to_string_alike h h' names Hall _ _ _ _ _ _ _
             Hmeasure).
  destruct (tree_write_to_string fuel h p names 0 (n + 1) true _)
    as [[m b']|] eqn:Hwrite; [|done].
  by rewrite (tree_write_to_string_alike h h' names Hall _ _ _ _ _ _ _
                Hwrite).
Qed.

(** A printed from two heaps that differ in what the printer does not
    read. *)
Lemma ts_tree_string_reads_witness :
  ts_tree_string 1 heap_AB_resized 1 example_names (λ _, "?"%char)
  = Some (c_string "(name1)").
Proof.
  apply (ts_tree_string_reads heap_AB heap_AB_resized example_names 1 1
           (λ _, "?"%char) (c_string "(name1)")).
  - unfold prints_alike. compute_done.
  - reflexivity.
Defined.

Lemma printable_alike (h h' : heap) names :
  prints_alike h h' →
  ∀ d top p, printable d h names top p → printable d h' names top p.
Proof.
  intros Hall. induction d as [|d IH]; intros top p; [done|].
  cbn [printable]. intros [->|(t & Hp & Hname & Hcs)]; [by left|]. right.
  destruct (prints_alike_lookup _ _ _ _ Hall Hp) as (t' & Hp' & Hsame).
  exists t'. split; [done|].
  rewrite <- (same_print_visible _ _ Hsame).
  destruct Hsame as (<- & _ & <- & _). split; [done|].
  eapply Forall_impl; [exact Hcs|]. intros c. apply IH.
Qed.

Lemma Rendered_alike (h h' : heap) names :
  prints_alike h h' →
  ∀ d top p (s : String.string),
    printable d h names top p →
    Rendered h names top p s → Rendered h' names top p s.
Proof.
  intros Hall. induction d as [|d IH]; intros top p s Hp Hs; [done|].
  assert (Hkids : ∀ t ss,
    h !! p = Some t → p ≠ NULL →
    Forall2 (Rendered h names false) (children t) ss →
    Forall2 (Rendered h' names false) (children t) ss).
  { intros t ss Ht Hnull Hss.
    destruct Hp as [->|(t' & Ht' & _ & Hcs)]; [done|]. simplify_eq.
    clear -IH Hcs Hss.
    induction Hss as [|c s' cs ss Hc _ IHss]; [constructor|].
    apply Forall_cons in Hcs as [Hc' Hcs].
    constructor; [by apply IH|by apply IHss]. }
  inversion Hs as [top'
                  |top' p' t name ss Hnull Ht Hvis Hsym Hname Hss
                  |top' p' t ss Hnull Ht Hvis Hsym Hss
                  |p' t ss Hnull Ht Hvis Hss]; subst.
  - constructor.
  - destruct (prints_alike_lookup _ _ _ _ Hall Ht) as (t' & Ht' & Hsame).
    pose proof (same_print_visible _ _ Hsame) as Hv.
    pose proof (Hkids _ _ Ht Hnull Hss) as Hss'.
    destruct Hsame as (Hsy & _ & Hch & _).
    apply (Rendered_named h' names top p t'); try done.
    + by rewrite <- Hv.
    + by rewrite <- Hsy.
    + by rewrite <- Hsy.
    + by rewrite <- Hch.
  - destruct (prints_alike_lookup _ _ _ _ Hall Ht) as (t' & Ht' & Hsame).
    pose proof (same_print_visible _ _ Hsame) as Hv.
    pose proof (Hkids _ _ Ht Hnull Hss) as Hss'.
    destruct Hsame as (Hsy & _ & Hch & Hla). rewrite Hla.
    apply (Rendered_error h' names top p t'); try done.
    + by rewrite <- Hv.
    + by rewrite <- Hsy.
    + by rewrite <- Hch.
  - destruct (prints_alike_lookup _ _ _ _ Hall Ht) as (t' & Ht' & Hsame).
    pose proof (same_print_visible _ _ Hsame) as Hv.
    pose proof (Hkids _ _ Ht Hnull Hss) as Hss'.
    destruct Hsame as (Hsy & _ & Hch & Hla).
    apply (Rendered_hidden h' names p t'); try done.
    + by rewrite <- Hv.
    + by rewrite <- Hch.
Qed.

Lemma make_node_prints_alike (h : heap) symbol cs ts is_hidden :
  prints_alike h
    (<[fresh_ptr h := node_of symbol cs ts is_hidden]> (retain_all cs h)).
Proof.
  intros p t Hp. unfold prints_at.
  rewrite lookup_insert_ne
    by (intros <-; pose proof (fresh_ptr_fresh h); congruence).
  by rewrite retain_all_lookup, Hp.
Qed.

(** X18.  Building and printing compose: the string of a node built with a
    symbol that has a name is that name in parentheses, followed inside them
    by the renderings its children had before the call, whether the node is
    built hidden or not. *)
Theorem make_node_string (h : heap) names symbol name is_hidden cs ts ss d :
  heap_ok h →
  Forall2 (λ c t, h !! c = Some t) cs ts →
  Forall (printable d h names false) cs →
  Forall2 (Rendered h names false) cs ss →
  symbol ≠ ts_builtin_sym_error →
  names !! Z.to_nat symbol = Some name →
  ∀ fuel junk, (d < fuel)%nat →
    ∃ r h',
      ts_tree_make_node symbol cs is_hidden h = Some (r, h') ∧
      ts_tree_string fuel h' r names junk
      = Some (c_string ("(" +:+ name +:+ foldr String.append "" ss +:+ ")")).
Proof.
  intros Hok Hcs Hprintable Hss Hsym Hname fuel junk Hfuel.
  pose proof (heap_ok_lookups _ _ _ Hok Hcs) as Hnodes.
  eexists _, _. split.
  { apply (ts_tree_make_node_run symbol cs ts);
      [by apply lookups_fields_at|done]. }
  pose proof (make_node_prints_alike h symbol cs ts is_hidden) as Hall.
  set (h' := <[fresh_ptr h := _]> _) in *.
  assert (Hr : h' !! fresh_ptr h = Some (node_of symbol cs ts is_hidden))
    by apply lookup_insert_eq.
  apply (ts_tree_string_prints (S d)); [| |lia].
  - right. eexists. split; [exact Hr|]. split; [by eauto|].
    cbn [node_of children]. eapply Forall_impl; [exact Hprintable|].
    intros c. by apply printable_alike.
  - apply (Rendered_named h' names true (fresh_ptr h)
             (node_of symbol cs ts is_hidden) name ss); try done.
    + apply fresh_ptr_not_null.
    + apply orb_true_r.
    + cbn [node_of children]. clearbody h'. clear -Hall Hprintable Hss.
      induction Hss as [|c s cs ss Hc _ IH]; [constructor|].
      apply Forall_cons in Hprintable as [Hp Hps].
      constructor; [by apply (Rendered_alike h h' names Hall d)|by apply IH].
Qed.

(** A node named [pair] built over A and B, hidden, and printed. *)
Lemma make_node_string_witness :
  ∃ r h',
    ts_tree_make_node 3 [1; 2] true heap_AB = Some (r, h') ∧
    ts_tree_string 2 h' r ["ERROR"; "a"; "b"; "pair"] (λ _, "?"%char)
    = Some (c_string ("(" +:+ "pair" +:+
                      foldr String.append "" [" (a)"; " (b)"] +:+ ")")).
Proof.
  refine (make_node_string heap_AB ["ERROR"; "a"; "b"; "pair"] 3 "pair" true
            [1; 2] [leaf_A; leaf_B] [" (a)"; " (b)"] 1 _ _ _ _ _ _
            2%nat (λ _, "?"%char) _).
  - exact heap_AB_ok.
  - repeat constructor.
  - constructor; [right; exists leaf_A; by repeat split|].
    constructor; [right; exists leaf_B; by repeat split|constructor].
  - constructor.
    { by apply (Rendered_named heap_AB _ false 1 leaf_A "a" []). }
    constructor; [|constructor].
    by apply (Rendered_named heap_AB _ false 2 leaf_B "b" []).
  - done.
  - reflexivity.
  - lia.
Defined.

(** ** Leaves under comparison *)

Lemma built_pair_run (make1 make2 : M ptr) (h : heap) t1 t2 :
  (∀ h0, make1 h0 = Some (fresh_ptr h0, <[fresh_ptr h0 := t1]> h0)) →
  (∀ h0, make2 h0 = Some (fresh_ptr h0, <[fresh_ptr h0 := t2]> h0)) →
  ∃ a b h',
    built_pair make1 make2 h = Some ((a, b), h') ∧
    a ≠ b ∧ h' !! a = Some t1 ∧ h' !! b = Some t2.
Proof.
  intros H1 H2. unfold built_pair, bind, ret. rewrite H1, H2.
  pose proof (fresh_ptr_fresh (<[fresh_ptr h := t1]> h)) as Hb.
  assert (Hne : fresh_ptr h ≠ fresh_ptr (<[fresh_ptr h := t1]> h)).
  { intros Heq. rewrite <- Heq in Hb. by rewrite lookup_insert_eq in Hb. }
  eexists _, _, _. split; [done|]. split; [done|]. split.
  - rewrite lookup_insert_ne by done. apply lookup_insert_eq.
  - apply lookup_insert_eq.
Qed.

(** X19.  What the comparison sees of leaves: two leaves from
    [ts_tree_make_leaf] are distinct nodes that compare equal exactly when
    their symbols are the same, whatever their sizes, paddings and hidden
    flags; two error leaves from [ts_tree_make_error] compare equal exactly
    when their lookahead characters are the same. *)
Theorem leaves_compare_by_symbol (h : heap) sym1 sz1 pad1 hid1
    sym2 sz2 pad2 hid2 c1 c2 fuel :
  (∃ a b h',
     built_pair (ts_tree_make_leaf sym1 sz1 pad1 hid1)
       (ts_tree_make_leaf sym2 sz2 pad2 hid2) h = Some ((a, b), h') ∧
     a ≠ b ∧
     ts_tree_equals (S fuel) h' a b = Some (bool_decide (sym1 = sym2))) ∧
  (∃ a b h',
     built_pair (ts_tree_make_error sz1 pad1 c1)
       (ts_tree_make_error sz2 pad2 c2) h = Some ((a, b), h') ∧
     a ≠ b ∧
     ts_tree_equals (S fuel) h' a b = Some (bool_decide (c1 = c2))).
Proof.
  split.
  - destruct (built_pair_run _ _ h _ _
                (ts_tree_make_leaf_run sym1 sz1 pad1 hid1)
                (ts_tree_make_leaf_run sym2 sz2 pad2 hid2))
      as (a & b & h' & Hrun & Hne & Ha & Hb).
    exists a, b, h'. split; [done|]. split; [done|].
    cbn [ts_tree_equals]. rewrite Ha, Hb. simpl.
    destruct (Z.eqb_spec sym1 sym2) as [Heq|Hneq]; simpl.
    + by rewrite bool_decide_eq_true_2.
    + by rewrite bool_decide_eq_false_2.
  - destruct (built_pair_run _ _ h _ _
                (ts_tree_make_error_run sz1 pad1 c1)
                (ts_tree_make_error_run sz2 pad2 c2))
      as (a & b & h' & Hrun & Hne & Ha & Hb).
    exists a, b, h'. split; [done|]. split; [done|].
    cbn [ts_tree_equals]. rewrite Ha, Hb. simpl.
    destruct (Ascii.eqb_spec c1 c2) as [Heq|Hneq]; simpl.
    + by rewrite bool_decide_eq_true_2.
    + by rewrite bool_decide_eq_false_2.
Qed.
